(** * EasyMotion plugin: query matcher, candidate collector, label generator
      and keystroke state machine

    A shallow embedding of [src/pinyin-search.ts] (class [PinyinSearch]) and
    [src/easymotion.ts] (class [EasyMotionManager]).

    Conventions of the embedding.
    - A JavaScript string is the list of its UTF-16 code units ([jsstring]).
    - Offsets and lengths are integers in [Z]; [-1] is what [indexOf] returns
      when nothing is found.
    - [undefined] is [None] where the source can produce it (indexing a
      string or an array out of range).
    - [String.prototype.toLowerCase] is a parameter [toLowerCase] from
      strings to strings: it may change the length of a string (U+0130 gives
      two units) and depends on the context of a unit, so nothing is assumed
      of it but what a statement says; the romanizer [pinyin] of the
      pinyin-pro package is a parameter too.
    - Numbers that are not offsets (screen coordinates, sizes, scroll
      positions) are IEEE 754 doubles, as in the source: the primitive
      floats. *)

From Stdlib Require Import List ZArith NArith Lia Bool Arith.
From Stdlib Require Import Ascii String.
From Stdlib Require Import Sorted Permutation.
From Stdlib Require Import PrimFloat.
Import ListNotations.

Abbreviation length := Datatypes.length (only parsing).

Open Scope nat_scope.

(* ================================================================== *)
(** ** JavaScript strings *)

Module Js.

Definition jsstring := list N.

(** String literals of the source, as code units. *)
Definition lit (s : string) : jsstring :=
  map N_of_ascii (list_ascii_of_string s).

Definition len (s : jsstring) : Z := Z.of_nat (length s).

Fixpoint eqs (a b : jsstring) : bool :=
  match a, b with
  | [], [] => true
  | x :: a', y :: b' => N.eqb x y && eqs a' b'
  | _, _ => false
  end.

(** [s.startsWith(q)] *)
Fixpoint startsWith (s q : jsstring) {struct q} : bool :=
  match q, s with
  | [], _ => true
  | _ :: _, [] => false
  | y :: q', x :: s' => N.eqb x y && startsWith s' q'
  end.

(** Smallest offset [k + j] with [q] a prefix of [s] dropped by [j]. *)
Fixpoint findFrom (q s : jsstring) (k : nat) : option nat :=
  if startsWith s q then Some k
  else match s with
       | [] => None
       | _ :: s' => findFrom q s' (S k)
       end.

(** [s.indexOf(q, from)]: the start position is clamped to [0, s.length];
    an empty [q] is found at the clamped start position. *)
Definition indexOf (s q : jsstring) (from : Z) : Z :=
  let start := Z.to_nat (Z.max 0 (Z.min from (len s))) in
  match findFrom q (skipn start s) start with
  | Some k => Z.of_nat k
  | None => -1
  end.

(** [s.includes(q)] *)
Definition includes (s q : jsstring) : bool :=
  match findFrom q s 0 with Some _ => true | None => false end.

(** [s.charAt(0)] *)
Definition charAt0 (s : jsstring) : jsstring := firstn 1 s.

(** [s[i]]: a one-unit string, or [undefined]. *)
Definition index (s : jsstring) (i : nat) : option jsstring :=
  option_map (fun c => [c]) (nth_error s i).

(** [s.slice(0, -1)] *)
Definition sliceInit (s : jsstring) : jsstring := removelast s.

(** [s.substring(i, j)] for [0 <= i <= j]. *)
Definition substring (s : jsstring) (i j : nat) : jsstring :=
  firstn (j - i) (skipn i s).

(** [parts.join(sep)] *)
Fixpoint join (sep : jsstring) (parts : list jsstring) : jsstring :=
  match parts with
  | [] => []
  | [p] => p
  | p :: rest => p ++ sep ++ join sep rest
  end.

(** The class [\s] of regular expressions: WhiteSpace and LineTerminator. *)
Definition isWhite (c : N) : bool :=
  ((9 <=? c) && (c <=? 13) || (c =? 32) || (c =? 160) || (c =? 5760)
   || (8192 <=? c) && (c <=? 8202) || (c =? 8232) || (c =? 8233)
   || (c =? 8239) || (c =? 8287) || (c =? 12288) || (c =? 65279))%N.

(** [s.split(/\s+/)]: every maximal run of white space separates two pieces;
    a run at either end leaves an empty piece there. [inRun] tells that the
    previous unit was white. *)
Fixpoint splitFrom (inRun : bool) (s : jsstring) : list jsstring :=
  match s with
  | [] => [[]]
  | c :: s' =>
      if isWhite c then
        if inRun then splitFrom true s' else [] :: splitFrom true s'
      else
        match splitFrom false s' with
        | piece :: rest => (c :: piece) :: rest
        | [] => [[c]]
        end
  end.

Definition splitWhite (s : jsstring) : list jsstring := splitFrom false s.

(** [/[a-zA-Z0-9]/.test(c)] on a one-unit string. *)
Definition isAlnum (c : N) : bool :=
  ((65 <=? c) && (c <=? 90) || (97 <=? c) && (c <=? 122)
   || (48 <=? c) && (c <=? 57))%N.

(** ToString of a value that is a string or [undefined], and [a + b] on such
    values when one of them is a string. *)
Definition toString (v : option jsstring) : jsstring :=
  match v with
  | Some s => s
  | None => lit "undefined"
  end.

Definition add (a b : option jsstring) : jsstring := toString a ++ toString b.

(** Truthiness of a value that is a string or [undefined]. *)
Definition truthy (v : option jsstring) : bool :=
  match v with
  | Some (_ :: _) => true
  | _ => false
  end.

(** A lower-casing for closed examples. It is [String.prototype.toLowerCase]
    on the strings of these examples, which are made of ASCII, of Han
    characters and of U+0130 (capital I with a dot above): that one becomes
    the two units U+0069 U+0307, an ASCII capital becomes its small letter,
    and any other unit stays. *)
Definition lowerUnits (c : N) : jsstring :=
  if (c =? 304)%N then [105; 775]%N
  else if ((65 <=? c) && (c <=? 90))%N then [(c + 32)%N]
  else [c].

Definition lowerCase (s : jsstring) : jsstring := flat_map lowerUnits s.

(** A number that is an integer, as a double. *)
Fixpoint ofPositive (p : positive) : float :=
  match p with
  | xH => 1
  | xO p' => 2 * ofPositive p'
  | xI p' => 2 * ofPositive p' + 1
  end%float.

Definition ofZ (z : Z) : float :=
  match z with
  | Z0 => 0
  | Zpos p => ofPositive p
  | Zneg p => - ofPositive p
  end%float.

End Js.

Import Js.

(* ================================================================== *)
(** ** Label generator ([EasyMotionManager.generateLabels]) *)

Definition characters : jsstring := lit "qwerasdfzxcv".

Definition generateLabels (count : nat) : list (option jsstring) :=
  let chars := characters in
  if count <=? length chars then
    map (fun i => index chars i) (seq 0 count)
  else
    map (fun i =>
           let first := i / length chars in
           let second := i mod length chars in
           Some (add (index chars first) (index chars second)))
        (seq 0 count).

(** The labelling scheme in the words of the specification: one-symbol labels
    for the first twelve entries, then pairs indexed from zero after them. *)
Definition spec_label (i : nat) : option jsstring :=
  if i <? 12 then index characters i
  else
    let j := i - 12 in
    Some (add (index characters (j / 12)) (index characters (j mod 12))).

Definition overAlphabet (v : option jsstring) : bool :=
  match v with
  | Some s => forallb (fun c => existsb (N.eqb c) characters) s
  | None => false
  end.

Definition labelLength (v : option jsstring) : nat :=
  match v with Some s => length s | None => 0 end.

(** The label the source gives to entry [i] of [count] entries. *)
Definition code_label (count i : nat) : option jsstring :=
  if count <=? 12 then index characters i
  else Some (add (index characters (i / 12)) (index characters (i mod 12))).

(** Boolean checks of distinctness and of the lengths of the labels. *)
Fixpoint memb (v : option jsstring) (l : list (option jsstring)) : bool :=
  match l with
  | [] => false
  | w :: l' =>
      match v, w with
      | Some a, Some b => eqs a b
      | None, None => true
      | _, _ => false
      end || memb v l'
  end.

Fixpoint distinctb (l : list (option jsstring)) : bool :=
  match l with
  | [] => true
  | v :: l' => negb (memb v l') && distinctb l'
  end.



(* ================================================================== *)
(** ** Runs that may not return *)

(** The loops over [indexOf] of the source are never left by their test
    [index !== -1] when the needle is the empty string, which is found again
    at every position. Such a loop spins, or, where every turn pushes to an
    array, goes on until the engine gives the array up and throws; none of
    these loops stands inside a [try], nor does any call that leads to them,
    so that the caller gets no value either. A computation is therefore
    either [Done] with its value or [NoReturn]. *)
Inductive run (A : Type) : Type :=
| Done (a : A)
| NoReturn.

Arguments Done {A} a.
Arguments NoReturn {A}.

Definition bind {A B : Type} (r : run A) (k : A -> run B) : run B :=
  match r with
  | Done a => k a
  | NoReturn => NoReturn
  end.

Notation "x <- r ;; k" := (bind r (fun x => k))
  (at level 61, r at next level, right associativity).

(** The loop
    [index = t.indexOf(q); while (index !== -1) { body; index = t.indexOf(q, index + 1) }]
    run for at most [fuel] iterations; [None] when they do not suffice. *)
Fixpoint whileIndex {A : Type} (fuel : nat) (t q : jsstring)
    (body : Z -> A -> A) (index : Z) (acc : A) : option A :=
  if (index =? -1)%Z then Some acc
  else
    match fuel with
    | 0 => None
    | S fuel' =>
        whileIndex fuel' t q body (indexOf t q (index + 1)) (body index acc)
    end.

(** The same loop as a run. [length t + 1] iterations are given: with a
    non-empty needle the loop is left within them, with an empty needle it is
    left after no number of iterations ([whileIndex_enough],
    [whileIndex_empty]). *)
Definition forEachIndex {A : Type} (t q : jsstring)
    (body : Z -> A -> A) (acc : A) : run A :=
  match whileIndex (S (length t)) t q body (indexOf t q 0) acc with
  | Some a => Done a
  | None => NoReturn
  end.

(** The offsets at which [q] occurs in a text, in increasing order: [occs q s k]
    lists [k + j] for every [j] such that [q] is a prefix of [s] without its
    first [j] units. *)
Fixpoint occs (q s : jsstring) (k : nat) : list Z :=
  (if startsWith s q then [Z.of_nat k] else [])
  ++ match s with
     | [] => []
     | _ :: s' => occs q s' (S k)
     end.

Definition occurrences (t q : jsstring) : list Z := occs q t 0.

(** [q] occurs in [t] at offset [i]. *)
Definition occursAt (t q : jsstring) (i : Z) : Prop :=
  (0 <= i)%Z /\ (i + len q <= len t)%Z
  /\ firstn (length q) (skipn (Z.to_nat i) t) = q.

(* ================================================================== *)
(** ** Query matcher ([PinyinSearch]) *)

Inductive MatchType : Type :=
| direct
| pinyin
| initials
| partial_pinyin
| partial_initials
| enhanced
| none.

Module PinyinMatchResult.
Record t : Type := mk {
  matched : bool;
  type : MatchType;
  pinyin : option jsstring;
  originalText : jsstring;
  matchedIndices : list Z
}.
End PinyinMatchResult.

(** What the call [pinyin(text, { toneType: 'none', type: 'array' })] of the
    pinyin-pro package gives: an array of syllables, a single string, or an
    exception. *)
Inductive PinyinOutput : Type :=
| PyArray (syllables : list jsstring)
| PyString (s : jsstring)
| PyThrows.

(** The first argument of [matchPinyin], a [string | string[]]. *)
Inductive SearchText : Type :=
| Str (s : jsstring)
| Arr (a : list jsstring).

Definition isEmpty (s : jsstring) : bool :=
  match s with [] => true | _ :: _ => false end.

Section PinyinSearch.

Variable toLowerCase : jsstring -> jsstring.
Variable pinyinPro : jsstring -> PinyinOutput.

Definition getPinyin (text : jsstring) : list jsstring :=
  match pinyinPro text with
  | PyArray result => result
  | PyString result => [result]
  | PyThrows => []
  end.

Definition getPinyinInitials (text : jsstring) : jsstring :=
  let pinyinArray := getPinyin text in
  join [] (map (fun py => toLowerCase (charAt0 py)) pinyinArray).

Definition findMatchIndices (text query : jsstring) : run (list Z) :=
  let textLower := toLowerCase text in
  let queryLower := toLowerCase query in
  forEachIndex textLower queryLower (fun index indices => indices ++ [index]) [].

Definition found (ty : MatchType) (py : option jsstring) (textStr : jsstring)
    (indices : list Z) : option PinyinMatchResult.t :=
  Some (PinyinMatchResult.mk true ty py textStr indices).

(** The loop over [queryParts] that ends [matchPinyin]. *)
Fixpoint matchParts (textStr textPinyin textInitials : jsstring)
    (queryParts : list jsstring) : run (option PinyinMatchResult.t) :=
  match queryParts with
  | [] => Done (Some (PinyinMatchResult.mk false none None textStr []))
  | part :: rest =>
      if includes (toLowerCase textPinyin) part then
        indices <- findMatchIndices textPinyin part ;;
        Done (found partial_pinyin (Some textPinyin) textStr indices)
      else if includes textInitials part then
        indices <- findMatchIndices textInitials part ;;
        Done (found partial_initials (Some textInitials) textStr indices)
      else matchParts textStr textPinyin textInitials rest
  end.

Definition falsyText (searchText : SearchText) : bool :=
  match searchText with
  | Str s => isEmpty s
  | Arr _ => false
  end.

Definition matchPinyin (searchText : SearchText) (searchQuery : jsstring)
    : run (option PinyinMatchResult.t) :=
  if falsyText searchText || isEmpty searchQuery then Done None
  else
    let textStr :=
      match searchText with
      | Arr a => join [] a
      | Str s => s
      end in
    if includes textStr searchQuery then
      indices <- findMatchIndices textStr searchQuery ;;
      Done (found direct None textStr indices)
    else
      let textPinyin := join (lit " ") (getPinyin textStr) in
      let textPinyinNoSpace := join [] (getPinyin textStr) in
      let textInitials := getPinyinInitials textStr in
      if includes (toLowerCase textPinyin) (toLowerCase searchQuery) then
        indices <- findMatchIndices textPinyin searchQuery ;;
        Done (found pinyin (Some textPinyin) textStr indices)
      else if includes (toLowerCase textPinyinNoSpace)
                       (toLowerCase searchQuery) then
        indices <- findMatchIndices textPinyinNoSpace searchQuery ;;
        Done (found pinyin (Some textPinyinNoSpace) textStr indices)
      else if includes textInitials (toLowerCase searchQuery) then
        indices <- findMatchIndices textInitials searchQuery ;;
        Done (found initials (Some textInitials) textStr indices)
      else
        let queryParts := splitWhite (toLowerCase searchQuery) in
        matchParts textStr textPinyin textInitials queryParts.

Definition isSingleCharPinyinMatch (text query : jsstring) : bool :=
  if negb (length query =? 1) then false
  else
    let queryLower := toLowerCase query in
    let textLower := toLowerCase text in
    if includes textLower queryLower then true
    else
      existsb
        (fun char =>
           if isAlnum char then false
           else
             existsb (fun py => eqs (toLowerCase (charAt0 py)) queryLower)
                     (getPinyin [char]))
        text.

Definition isFullPinyinMatch (text query : jsstring) : bool :=
  if length query <? 2 then false
  else
    let queryLower := toLowerCase query in
    let textPinyinWithSpace := toLowerCase (join (lit " ") (getPinyin text)) in
    let textPinyinNoSpace := toLowerCase (join [] (getPinyin text)) in
    let textInitials := toLowerCase (getPinyinInitials text) in
    if includes textPinyinWithSpace queryLower then true
    else if includes textPinyinNoSpace queryLower then true
    else if includes textInitials queryLower then true
    else if existsb (fun word => startsWith word queryLower)
                    (splitWhite textPinyinWithSpace) then true
    else
      existsb
        (fun i => eqs (substring textPinyinNoSpace i (i + length queryLower))
                      queryLower)
        (seq 0 (Z.to_nat (len textPinyinNoSpace - len queryLower + 1))).

(** The loop over [queries] of [enhancedMatch]. *)
Fixpoint enhancedLoop (text textLower : jsstring) (queries : list jsstring)
    : run bool :=
  match queries with
  | [] => Done false
  | query :: rest =>
      if isEmpty query then enhancedLoop text textLower rest
      else if includes textLower (toLowerCase query) then Done true
      else
        matchResult <- matchPinyin (Str text) query ;;
        if match matchResult with
           | Some r => PinyinMatchResult.matched r
           | None => false
           end then Done true
        else if isSingleCharPinyinMatch text query then Done true
        else if isFullPinyinMatch text query then Done true
        else enhancedLoop text textLower rest
  end.

Definition enhancedMatch (text : jsstring) (queries : list jsstring)
    : run bool :=
  if isEmpty text || (length queries =? 0) then Done false
  else enhancedLoop text (toLowerCase text) queries.

End PinyinSearch.

(* ================================================================== *)
(** ** The rendered document, as the collector reads it *)

Module Rect.
Record t : Type := mk {
  top : float;
  left : float;
  bottom : float;
  width : float;
  height : float
}.
End Rect.

(** What the collector asks of the parent element of a text node. *)
Module Element.
Record t : Type := mk {
  (** [parent.closest('.orca-tags')] is not null *)
  inTags : bool;
  (** [closest('.orca-insert-top') || closest('.orca-insert-bottom')] *)
  isInsertBtn : bool;
  (** one of the five [.orca-repr-*] / [.orca-inline-*] ancestors exists *)
  hasContainer : bool;
  (** [parent.getBoundingClientRect()] *)
  boundingClientRect : Rect.t
}.
End Element.

(** A text node met by the tree walker. [clientRects s e] is what
    [getClientRects()] gives for the range from offset [s] to offset [e]. *)
Module TextNode.
Record t : Type := mk {
  parentElement : option Element.t;
  nodeValue : jsstring;
  clientRects : Z -> Z -> list Rect.t
}.
End TextNode.

Module Window.
Record t : Type := mk {
  innerHeight : float;
  innerWidth : float;
  scrollX : float;
  scrollY : float
}.
End Window.

Module Match.
Record t : Type := mk {
  node : TextNode.t;
  index : Z;
  length : Z;
  rect : Rect.t;
  allRects : list Rect.t;
  pinyinMatch : option PinyinMatchResult.t
}.
End Match.

(** A hint, without the marker element and its measured width and height,
    which belong to the renderer. *)
Module Hint.
Record t : Type := mk {
  label : jsstring;
  node : TextNode.t;
  index : Z;
  length : Z;
  top : float;
  left : float;
  allRects : list Rect.t
}.
End Hint.

(* ================================================================== *)
(** ** Deduplication ([EasyMotionManager.removeDuplicateMatches]) *)

(** The test of [some] in the source: subtraction, [Math.abs] and [<] are
    those of doubles. *)
Definition near (current existing : Match.t) : bool :=
  let dx := abs (Rect.left (Match.rect current)
                 - Rect.left (Match.rect existing))%float in
  let dy := abs (Rect.top (Match.rect current)
                 - Rect.top (Match.rect existing))%float in
  (dx <? 5)%float && (dy <? 5)%float.

Definition removeDuplicateMatches (matches : list Match.t) : list Match.t :=
  fold_left
    (fun uniqueMatches current =>
       let isDuplicate := existsb (fun existing => near current existing)
                                  uniqueMatches in
       if negb isDuplicate then uniqueMatches ++ [current]
       else uniqueMatches)
    matches [].

(* ================================================================== *)
(** ** Hints ([EasyMotionManager.renderHints]) *)

(** [labels[i]]: [undefined] beyond the end of the array. *)
Definition labelAt (labels : list (option jsstring)) (i : nat)
    : option jsstring :=
  match nth_error labels i with
  | Some v => v
  | None => None
  end.

(** The array [newHints] built by the [forEach] of [renderHints]; the
    overlays drawn on the way are the renderer's. [fixOverlaps] afterwards
    reorders the array and restyles markers, and leaves every hint as it is. *)
Fixpoint renderFrom (win : Window.t) (labels : list (option jsstring))
    (i : nat) (matches : list Match.t) : list Hint.t :=
  match matches with
  | [] => []
  | m :: rest =>
      let label := labelAt labels i in
      if negb (truthy label) then renderFrom win labels (S i) rest
      else
        let top := (Rect.top (Match.rect m) + Window.scrollY win)%float in
        let left := (Rect.left (Match.rect m)
                     + Rect.width (Match.rect m) / 2
                     + Window.scrollX win)%float in
        Hint.mk (toString label) (Match.node m) (Match.index m)
                (Match.length m) top left (Match.allRects m)
        :: renderFrom win labels (S i) rest
  end.

Definition renderHints (win : Window.t) (matches : list Match.t)
    (labels : list (option jsstring)) : list Hint.t :=
  renderFrom win labels 0 matches.

(* ================================================================== *)
(** ** Candidate collector ([EasyMotionManager.findVisibleMatches...]) *)

(** [[...new Set(indices)]]: first occurrences, in order. *)
Definition setOf (indices : list Z) : list Z :=
  fold_left
    (fun seen x => if existsb (Z.eqb x) seen then seen else seen ++ [x])
    indices [].

(** [.sort((a, b) => a - b)] *)
Fixpoint insertAsc (x : Z) (l : list Z) : list Z :=
  match l with
  | [] => [x]
  | y :: l' => if (x <=? y)%Z then x :: l else y :: insertAsc x l'
  end.

Definition sortAsc (l : list Z) : list Z := fold_right insertAsc [] l.

(** The positions [i] of a [for (let i = 0; i < text.length; i++)] loop with
    the unit [text[i]]. *)
Definition units (text : jsstring) : list (nat * N) :=
  combine (seq 0 (length text)) text.

(** The only field of the source that is never assigned after its
    initialisation. *)
Definition enablePinyinSearch : bool := true.

Section Collector.

Variable toLowerCase : jsstring -> jsstring.
Variable pinyinPro : jsstring -> PinyinOutput.
Variable win : Window.t.

Let lower := toLowerCase.
Let romanize := getPinyin pinyinPro.

Definition findEnhancedMatchIndices (text query : jsstring) : run (list Z) :=
  let queryLower := lower query in
  let inText := fun index : Z => ((index >=? 0) && (index <? len text))%Z in
  indices <-
    (if includes (lower text) queryLower then
       forEachIndex (lower text) queryLower
         (fun index indices =>
            if inText index then indices ++ [index] else indices)
         []
     else Done []) ;;
  if (length query =? 1) && (0 <? length indices) then
    Done (filter inText indices)
  else
    let indices :=
      if length query =? 1 then
        fold_left
          (fun indices '(i, char) =>
             if isAlnum char then indices
             else
               match romanize [char] with
               | [] => indices
               | first :: _ =>
                   let pinyinInitial := lower first in
                   if startsWith pinyinInitial queryLower
                   then indices ++ [Z.of_nat i]
                   else indices
               end)
          (units text) indices
      else
        fold_left
          (fun indices '(i, char) =>
             if isAlnum char then indices
             else
               let charPinyin := romanize [char] in
               let charPinyinStr := lower (join [] charPinyin) in
               let charInitial :=
                 match charPinyin with
                 | first :: _ =>
                     if isEmpty first then [] else lower (charAt0 first)
                 | [] => []
                 end in
               if includes charPinyinStr queryLower
                  || eqs charInitial queryLower
                  || includes (lower (join (lit " ") charPinyin)) queryLower
               then
                 if inText (Z.of_nat i) then indices ++ [Z.of_nat i]
                 else indices
               else indices)
          (units text) indices in
    Done (sortAsc (filter inText (setOf indices))).

Definition inViewport (rect : Rect.t) : bool :=
  let viewportBottom := Window.innerHeight win in
  (0 <=? Rect.top rect)%float && (Rect.top rect <=? viewportBottom)%float
  && (0 <=? Rect.left rect)%float
  && (Rect.left rect <=? Window.innerWidth win)%float.

(** The block repeated in the three branches of the collector: make the
    range from [start] to [stop], take its rectangles, and push a match when
    the first rectangle lies in the viewport. *)
Definition pushRange (node : TextNode.t) (start stop : Z)
    (make : Rect.t -> list Rect.t -> Match.t) (matches : list Match.t)
    : list Match.t :=
  let rects := TextNode.clientRects node start stop in
  match rects with
  | [] => matches
  | rect :: _ =>
      if inViewport rect then matches ++ [make rect rects] else matches
  end.

(** Body of the loop over the direct occurrences. *)
Definition pushDirect (node : TextNode.t) (text keyword : jsstring)
    (index : Z) (matches : list Match.t) : list Match.t :=
  if ((index >=? 0) && (index + len keyword <=? len text))%Z then
    pushRange node index (index + len keyword)
      (fun rect rects =>
         Match.mk node index (len keyword) rect rects
           (Some (PinyinMatchResult.mk true direct None text [index])))
      matches
  else matches.

(** Body of the loop over the indices of a romanized outcome. *)
Definition pushPinyin (node : TextNode.t) (text keyword : jsstring)
    (matchResult : PinyinMatchResult.t)
    (matches : list Match.t) (matchIndex : Z) : list Match.t :=
  if ((matchIndex >=? 0) && (matchIndex <? len text))%Z then
    let endPosition := Z.min (matchIndex + len keyword) (len text) in
    pushRange node matchIndex endPosition
      (fun rect rects =>
         Match.mk node matchIndex (endPosition - matchIndex) rect rects
           (Some matchResult))
      matches
  else matches.

(** Body of the loop over the indices of the last resort. *)
Definition pushEnhanced (node : TextNode.t) (text keyword : jsstring)
    (matches : list Match.t) (matchIndex : Z) : list Match.t :=
  let matchLength := Z.min (len keyword) (len text - matchIndex) in
  let endPosition := Z.min (matchIndex + matchLength) (len text) in
  pushRange node matchIndex endPosition
    (fun rect rects =>
       Match.mk node matchIndex matchLength rect rects
         (Some (PinyinMatchResult.mk true enhanced (Some keyword) text
                  [matchIndex])))
    matches.

(** One turn of [for (const keyword of keywords)] on a text node. *)
Definition scanKeyword (node : TextNode.t) (text keyword : jsstring)
    (matches : list Match.t) : run (list Match.t) :=
  if isEmpty keyword then Done matches
  else
    let textLower := lower text in
    let keywordLower := lower keyword in
    if includes textLower keywordLower then
      forEachIndex textLower keywordLower (pushDirect node text keyword)
                   matches
    else
      matchResult <- matchPinyin toLowerCase pinyinPro (Str text) keyword ;;
      let lastResort :=
        enhancedMatchIndices <- findEnhancedMatchIndices text keyword ;;
        Done (fold_left (pushEnhanced node text keyword)
                        enhancedMatchIndices matches) in
      match matchResult with
      | Some r =>
          if PinyinMatchResult.matched r
             && (0 <? length (PinyinMatchResult.matchedIndices r))
          then Done (fold_left (pushPinyin node text keyword r)
                               (PinyinMatchResult.matchedIndices r) matches)
          else lastResort
      | None => lastResort
      end.

Fixpoint scanKeywords (node : TextNode.t) (text : jsstring)
    (keywords : list jsstring) (matches : list Match.t)
    : run (list Match.t) :=
  match keywords with
  | [] => Done matches
  | keyword :: rest =>
      matches' <- scanKeyword node text keyword matches ;;
      scanKeywords node text rest matches'
  end.

(** One turn of the loop over the text nodes. The boolean tells whether the
    loop is left by [break]; a turn left by [continue] does not reach the
    test of the number of matches. *)
Definition scanNode (keywords : list jsstring) (node : TextNode.t)
    (matches : list Match.t) : run (list Match.t * bool) :=
  match TextNode.parentElement node with
  | None => Done (matches, false)
  | Some parent =>
      if Element.inTags parent then Done (matches, false)
      else
        let isInsertBtn := Element.isInsertBtn parent in
        let container :=
          if negb isInsertBtn then Element.hasContainer parent else false in
        if negb container && negb isInsertBtn then Done (matches, false)
        else
          let text := TextNode.nodeValue node in
          if isEmpty text then Done (matches, false)
          else
            hit <- enhancedMatch toLowerCase pinyinPro text keywords ;;
            if hit then
              let parentRect := Element.boundingClientRect parent in
              if (Rect.bottom parentRect <? 0)%float
                 || (Window.innerHeight win <? Rect.top parentRect)%float
              then Done (matches, false)
              else
                matches' <- scanKeywords node text keywords matches ;;
                Done (matches', 300 <? length matches')
            else Done (matches, 300 <? length matches)
  end.

(** The loop [while ((node = walker.nextNode()))] over the text nodes in
    document order. *)
Fixpoint walk (keywords : list jsstring) (nodes : list TextNode.t)
    (matches : list Match.t) : run (list Match.t) :=
  match nodes with
  | [] => Done matches
  | node :: rest =>
      step <- scanNode keywords node matches ;;
      let '(matches', leave) := step in
      if leave then Done matches' else walk keywords rest matches'
  end.

Definition findVisibleMatchesWithPinyin (keywords : list jsstring)
    (nodes : list TextNode.t) : run (list Match.t) :=
  walk keywords nodes [].

(** The scan by regular expression that follows the test of
    [enablePinyinSearch] in [findVisibleMatches]; the flag being always set,
    it is never run. *)
Variable regexScan : list jsstring -> list TextNode.t -> run (list Match.t).

Definition findVisibleMatches (keywords : list jsstring)
    (nodes : list TextNode.t) : run (list Match.t) :=
  if enablePinyinSearch then findVisibleMatchesWithPinyin keywords nodes
  else regexScan keywords nodes.

End Collector.

(* ================================================================== *)
(** ** Session state machine ([handleKeyDown], [checkHints], ...) *)

(** A range of the host: one that the host had when the search bar opened,
    the one inside the input of the search bar, where [input.select()] and
    [input.focus()] put the selection, or the caret that [jumpTo] asks for
    from a node, an offset and a length. *)
Inductive DomRange : Type :=
| HostRange (id : nat)
| SearchInputRange
| JumpRange (node : TextNode.t) (index length : Z).

Module Session.
Record t : Type := mk {
  hints : list Hint.t;
  inputBuffer : jsstring;
  active : bool;
  waitingForInput : bool;
  searchBar : bool;               (** the search bar element exists *)
  savedRange : option DomRange;
  lastAltPressTime : Z;
  selection : option DomRange     (** the selection of the host *)
}.
End Session.

Module KeyboardEvent.
Record t : Type := mk {
  key : jsstring;
  repeat : bool;
  now : Z                          (** [Date.now()] when it is handled *)
}.
End KeyboardEvent.

Section StateMachine.

Variable toLowerCase : jsstring -> jsstring.

(** What the host makes of a selection that is inside the input of the
    search bar when the bar is taken out of the document; the source does
    not determine it. *)
Variable detached : option DomRange.

Import Session.

(** [this.searchBar.remove()] takes the bar, if there is one, out of the
    document; a selection elsewhere stays. *)
Definition closeSearchBar (s : Session.t) : Session.t :=
  mk (hints s) (inputBuffer s) (active s) false false (savedRange s)
     (lastAltPressTime s)
     (if searchBar s then
        match selection s with
        | Some SearchInputRange => detached
        | other => other
        end
      else selection s).

Definition deactivate (s : Session.t) : Session.t :=
  let s := mk (hints s) (inputBuffer s) false false (searchBar s)
              (savedRange s) (lastAltPressTime s) (selection s) in
  let s := closeSearchBar s in
  let s := mk [] (inputBuffer s) (active s) (waitingForInput s) (searchBar s)
              (savedRange s) (lastAltPressTime s) (selection s) in
  match savedRange s with
  | Some range =>
      mk (hints s) (inputBuffer s) (active s) (waitingForInput s)
         (searchBar s) None (lastAltPressTime s) (Some range)
  | None => s
  end.

(** The range of the selection, if there is one, is saved; the bar is
    appended to the document and its input focused, which takes the
    selection of the host into the input. *)
Definition openSearchBar (s : Session.t) : Session.t :=
  mk (hints s) (inputBuffer s) (active s) true true (selection s)
     (lastAltPressTime s) (Some SearchInputRange).

Definition jumpTo (s : Session.t) (node : TextNode.t) (index length : Z)
    : Session.t :=
  mk (hints s) (inputBuffer s) (active s) (waitingForInput s) (searchBar s)
     None (lastAltPressTime s) (Some (JumpRange node index length)).

Definition setBuffer (s : Session.t) (buffer : jsstring) : Session.t :=
  mk (hints s) buffer (active s) (waitingForInput s) (searchBar s)
     (savedRange s) (lastAltPressTime s) (selection s).

Definition setLastAlt (s : Session.t) (time : Z) : Session.t :=
  mk (hints s) (inputBuffer s) (active s) (waitingForInput s) (searchBar s)
     (savedRange s) time (selection s).

Definition checkHints (s : Session.t) (newKey : jsstring) : Session.t :=
  let nextBuffer := inputBuffer s ++ newKey in
  let found := find (fun h => eqs (Hint.label h) nextBuffer) (hints s) in
  let possible :=
    filter (fun h => startsWith (Hint.label h) nextBuffer) (hints s) in
  match found with
  | Some h =>
      deactivate (jumpTo s (Hint.node h) (Hint.index h) (Hint.length h))
  | None =>
      if 0 <? length possible then setBuffer s nextBuffer else s
  end.

Definition handleKeyDown (s : Session.t) (e : KeyboardEvent.t) : Session.t :=
  if KeyboardEvent.repeat e then s
  else if eqs (KeyboardEvent.key e) (lit "Alt") then
    let now := KeyboardEvent.now e in
    if (now - lastAltPressTime s <? 300)%Z then
      let s := if active s || waitingForInput s then deactivate s
               else openSearchBar s in
      setLastAlt s 0
    else setLastAlt s now
  else if negb (active s) && negb (waitingForInput s) then s
  else if waitingForInput s then
    if eqs (KeyboardEvent.key e) (lit "Escape") then deactivate s else s
  else if active s then
    let key := toLowerCase (KeyboardEvent.key e) in
    if eqs key (lit "escape") then deactivate s
    else if eqs key (lit "backspace") then
      if 0 <? length (inputBuffer s) then
        setBuffer s (sliceInit (inputBuffer s))
      else s
    else if includes characters key then checkHints s key
    else s
  else s.

End StateMachine.

(* ================================================================== *)
(** ** A small romanizer and a small document, for closed examples *)

(** Four Han characters with their syllables; any other unit is its own
    syllable. *)
Definition syllable (c : N) : jsstring :=
  if (c =? 20320)%N then lit "ni"
  else if (c =? 22909)%N then lit "hao"
  else if (c =? 19990)%N then lit "shi"
  else if (c =? 30028)%N then lit "jie"
  else [c].

Definition toyPinyin (text : jsstring) : PinyinOutput :=
  PyArray (map syllable text).

Definition unitRect (x y : Z) : Rect.t :=
  Rect.mk (ofZ y) (ofZ x) (ofZ (y + 10)) 8 10.

Definition page : Window.t := Window.mk 600 800 0 0.

Definition paragraph : Element.t :=
  Element.mk false false true (Rect.mk 0 0 600 800 600).

(** A text node on line [line] whose unit at offset [s] is drawn ten pixels
    to the right of the one before. *)
Definition lineNode (line : Z) (text : jsstring) : TextNode.t :=
  TextNode.mk (Some paragraph) text
              (fun s _ => [unitRect (10 * s) (20 * line)]).

(** The same, but units from offset [cut] on are drawn below the viewport. *)
Definition clippedNode (cut : Z) (text : jsstring) : TextNode.t :=
  TextNode.mk (Some paragraph) text
              (fun s _ => [unitRect (10 * s)
                                    (if (s <? cut)%Z then 0 else 700)]).

(** [n] candidates at the start of [n] successive lines. *)
Definition stackedMatches (n : nat) : list Match.t :=
  map (fun i =>
         let line := Z.of_nat i in
         Match.mk (lineNode line (lit "x")) 0 1 (unitRect 0 (20 * line))
                  [unitRect 0 (20 * line)] None)
      (seq 0 n).

(** A candidate on the first line whose rectangle starts at [left]. *)
Definition matchAtLeft (left : float) : Match.t :=
  Match.mk (lineNode 0 (lit "x")) 0 1 (Rect.mk 0 left 10 8 10) [] None.

(** The hints of the example of the specification: "a" and "sd". *)
Definition hintA : Hint.t :=
  Hint.mk (lit "a") (lineNode 0 (lit "the")) 0 3 0 0 [].

Definition hintSD : Hint.t :=
  Hint.mk (lit "sd") (lineNode 1 (lit "the")) 0 3 20 0 [].

Definition activeSession (buffer : jsstring) : Session.t :=
  Session.mk [hintA; hintSD] buffer true false false (Some (HostRange 0)) 0
             (Some (HostRange 9)).

Definition press (k : string) : KeyboardEvent.t :=
  KeyboardEvent.mk (lit k) false 1000.


(** The step of the fold in [removeDuplicateMatches]. *)
Definition keepFirst (uniqueMatches : list Match.t) (current : Match.t)
    : list Match.t :=
  if negb (existsb (near current) uniqueMatches)
  then uniqueMatches ++ [current]
  else uniqueMatches.

(* ================================================================== *)
(** ** The strategy order of the query matcher, in the words of the
       specification *)

(** A strategy on a text and a token: whether it succeeds, the outcome type
    it gives, the romanized string it compares against (none for the direct
    strategy, which compares against the text) and the token or sub-token
    that it looks for. *)
Module Strategy.
Record t : Type := mk {
  succeeds : bool;
  type : MatchType;
  pinyin : option jsstring;
  needle : jsstring
}.
End Strategy.

Section Strategies.

Variable toLowerCase : jsstring -> jsstring.
Variable pinyinPro : jsstring -> PinyinOutput.

(** The strategies in their order: direct, space-joined romanized form,
    concatenated romanized form, initials, then for each sub-token of the
    lower-cased token in turn the space-joined form and the initials. *)
Definition spec_strategies (text token : jsstring) : list Strategy.t :=
  let lower := toLowerCase in
  let syllables := getPinyin pinyinPro text in
  let spaced := join (lit " ") syllables in
  let packed := join [] syllables in
  let initialsOf := getPinyinInitials toLowerCase pinyinPro text in
  [ Strategy.mk (includes text token) direct None token;
    Strategy.mk (includes (lower spaced) (lower token)) pinyin (Some spaced)
                token;
    Strategy.mk (includes (lower packed) (lower token)) pinyin (Some packed)
                token;
    Strategy.mk (includes initialsOf (lower token)) initials
                (Some initialsOf) token ]
  ++ flat_map
       (fun sub =>
          [ Strategy.mk (includes (lower spaced) sub) partial_pinyin
                        (Some spaced) sub;
            Strategy.mk (includes initialsOf sub) partial_initials
                        (Some initialsOf) sub ])
       (splitWhite (lower token)).

(** The first strategy that succeeds, if one does. *)
Definition spec_firstSuccess (strategies : list Strategy.t)
    : option Strategy.t :=
  find Strategy.succeeds strategies.

(** The string a strategy compares against. *)
Definition haystack (text : jsstring) (st : Strategy.t) : jsstring :=
  match Strategy.pinyin st with
  | Some romanized => romanized
  | None => text
  end.

(** What the matcher makes of the first success: the matched outcome of its
    type, with the string it compared against and the offsets of the
    lower-cased needle in the lower-cased copy of that string, unless the
    lower-cased needle is empty, on which the search for the offsets does not
    return; the unmatched outcome of type [none] when no strategy
    succeeds. *)
Definition outcomeOf (text : jsstring) (first : option Strategy.t)
    : run (option PinyinMatchResult.t) :=
  match first with
  | Some st =>
      if isEmpty (toLowerCase (Strategy.needle st)) then NoReturn
      else
        Done (Some (PinyinMatchResult.mk true (Strategy.type st)
                      (Strategy.pinyin st) text
                      (occurrences (toLowerCase (haystack text st))
                                   (toLowerCase (Strategy.needle st)))))
  | None => Done (Some (PinyinMatchResult.mk false none None text []))
  end.

End Strategies.


Definition isPartial (ty : MatchType) : bool :=
  match ty with
  | partial_pinyin | partial_initials => true
  | _ => false
  end.

(** The text of the end-to-end example of the specification (U+4F60, U+597D,
    U+4E16, U+754C), and an outcome of the partial strategy on it. *)
Definition hanText : jsstring := [20320; 22909; 19990; 30028]%N.



(** The two text units of the end-to-end example of the specification. *)
Definition exampleDocument : list TextNode.t :=
  [lineNode 0 (lit "hello world"); lineNode 1 hanText].

(** A text node all of whose ranges are drawn at the same place. *)
Definition denseNode (text : jsstring) : TextNode.t :=
  TextNode.mk (Some paragraph) text (fun _ _ => [unitRect 0 0]).

(** The rectangles of a range whose first rectangle lies in the viewport. *)
Definition visibleRange (win : Window.t) (node : TextNode.t) (start stop : Z)
    : option (Rect.t * list Rect.t) :=
  match TextNode.clientRects node start stop with
  | [] => None
  | rect :: rest =>
      if inViewport win rect then Some (rect, rect :: rest) else None
  end.

(** The candidates of the direct strategy for a keyword on a node: for each
    offset at which the lower-cased keyword occurs in the lower-cased text,
    in increasing order, one candidate of the length of the keyword if the
    keyword placed at that offset ends within the text and the range is
    visible, none otherwise. *)
Definition directCandidates (toLowerCase : jsstring -> jsstring)
    (win : Window.t) (node : TextNode.t) (keyword : jsstring)
    : list Match.t :=
  let text := TextNode.nodeValue node in
  flat_map
    (fun index =>
       if (index + len keyword <=? len text)%Z then
         match visibleRange win node index (index + len keyword) with
         | Some (rect, rects) =>
             [Match.mk node index (len keyword) rect rects
                (Some (PinyinMatchResult.mk true direct None text [index]))]
         | None => []
         end
       else [])
    (occurrences (toLowerCase text) (toLowerCase keyword)).

Definition emitted (r : run (list Match.t)) : option (list Z) :=
  match r with
  | Done matches => Some (map Match.index matches)
  | NoReturn => None
  end.

(** A document whose first node holds 301 occurrences of "a". *)
Definition denseDocument : list TextNode.t :=
  [denseNode (repeat 97%N 301); denseNode (lit "a")].

(** "İa": U+0130 followed by "a". Lower-cased, it has three units, and "a" is
    found at offset 2 of them. *)
Definition dottedText : jsstring := [304; 97]%N.

(* ================================================================== *)
(** ** The rest of the session: pointer, scroll, search bar, activation *)

(** [s.trim()]: white space is the class of [isWhite]. *)
Fixpoint trimStart (s : jsstring) : jsstring :=
  match s with
  | [] => []
  | c :: s' => if isWhite c then trimStart s' else s
  end.

Definition trim (s : jsstring) : jsstring :=
  rev (trimStart (rev (trimStart s))).

Definition setSavedRange (s : Session.t) (range : option DomRange)
    : Session.t :=
  Session.mk (Session.hints s) (Session.inputBuffer s) (Session.active s)
             (Session.waitingForInput s) (Session.searchBar s) range
             (Session.lastAltPressTime s) (Session.selection s).

Section Activation.

Variable toLowerCase : jsstring -> jsstring.
Variable detached : option DomRange.

(** [handleMouseDown]; [inSearchBar] is
    [this.searchBar.contains(e.target)]. *)
Definition handleMouseDown (s : Session.t) (inSearchBar : bool) : Session.t :=
  if negb (Session.active s) && negb (Session.waitingForInput s) then s
  else if Session.searchBar s && inSearchBar then s
  else deactivate detached (setSavedRange s None).

(** [autoDismiss], bound to scroll and wheel while hints are shown. *)
Definition autoDismiss (s : Session.t) : Session.t :=
  if Session.active s then deactivate detached s else s.

Variable pinyinPro : jsstring -> PinyinOutput.
Variable win : Window.t.
Variable regexScan : list jsstring -> list TextNode.t -> run (list Match.t).

(** [this.hints.sort(...)] in [fixOverlaps]. The comparator (by [top] when
    the tops differ by more than 5, by [left] otherwise) is not a consistent
    order, so the resulting order depends on the engine; the marker styles
    set afterwards are the renderer's. *)
Variable sortHints : list Hint.t -> list Hint.t.

Definition fixOverlaps (hints : list Hint.t) : list Hint.t := sortHints hints.

(** [activate], with [this.targetKeywords] and the text nodes of the
    document as arguments. *)
Definition activate (s : Session.t) (targetKeywords : list jsstring)
    (nodes : list TextNode.t) : run Session.t :=
  let s := Session.mk (Session.hints s) [] true (Session.waitingForInput s)
                      (Session.searchBar s) (Session.savedRange s)
                      (Session.lastAltPressTime s) (Session.selection s) in
  matches <- findVisibleMatches toLowerCase pinyinPro win regexScan
                                targetKeywords nodes ;;
  let matches := removeDuplicateMatches matches in
  match matches with
  | [] => Done (deactivate detached s)
  | [m] =>
      Done (deactivate detached (jumpTo s (Match.node m) (Match.index m)
                               (Match.length m)))
  | _ =>
      let labels := generateLabels (length matches) in
      let newHints := renderHints win matches labels in
      Done (Session.mk (fixOverlaps newHints) (Session.inputBuffer s)
                       (Session.active s) (Session.waitingForInput s)
                       (Session.searchBar s) (Session.savedRange s)
                       (Session.lastAltPressTime s) (Session.selection s))
  end.

(** The [keydown] listener of the input of the search bar; [value] is
    [input.value]. *)
Definition searchBarKeyDown (s : Session.t) (key value : jsstring)
    (nodes : list TextNode.t) : run Session.t :=
  if eqs key (lit "Control") || eqs key (lit "Alt") then Done s
  else if eqs key (lit "Enter") then
    let val := trim value in
    if negb (isEmpty val) then
      let targetKeywords := splitWhite val in
      activate (closeSearchBar detached s) targetKeywords nodes
    else Done (deactivate detached s)
  else if eqs key (lit "Escape") then Done (deactivate detached s)
  else Done s.

End Activation.

(* ================================================================== *)
(** ** Notions used in the further properties *)

Definition noWhite (s : jsstring) : bool :=
  forallb (fun c => negb (isWhite c)) s.

(** What is asked of the lower-casing where a statement needs it: it gives
    no empty string for a string that is not empty; and, on a given string,
    it works unit by unit and gives one unit for each. *)
Definition keepsNonEmpty (toLowerCase : jsstring -> jsstring) : Prop :=
  forall s, s <> [] -> toLowerCase s <> [].

Definition unitwise (toLowerCase : jsstring -> jsstring) (s : jsstring)
    : Prop :=
  toLowerCase s = flat_map (fun c => toLowerCase [c]) s
  /\ Forall (fun c => length (toLowerCase [c]) = 1) s.

Definition overCharacters (s : jsstring) : Prop :=
  forall c, In c s -> In c characters.

(** The session shows hints and reads label keys. *)
Definition showing (s : Session.t) : Prop :=
  Session.active s = true /\ Session.waitingForInput s = false.

Definition idle (s : Session.t) : Prop :=
  Session.active s = false /\ Session.waitingForInput s = false
  /\ Session.searchBar s = false /\ Session.hints s = []
  /\ Session.savedRange s = None.

(** A key event that is not a repeat, for the key made of the unit [c]. *)
Definition keyOf (c : N) : KeyboardEvent.t := KeyboardEvent.mk [c] false 0.

(** The text nodes that the walk does not skip before looking at keywords. *)
Definition eligible (win : Window.t) (node : TextNode.t) : Prop :=
  exists parent,
    TextNode.parentElement node = Some parent
    /\ Element.inTags parent = false
    /\ (Element.isInsertBtn parent = true \/ Element.hasContainer parent = true)
    /\ TextNode.nodeValue node <> []
    /\ (Rect.bottom (Element.boundingClientRect parent) <? 0)%float = false
    /\ (Window.innerHeight win
        <? Rect.top (Element.boundingClientRect parent))%float = false.

(** A session that shows two hints labelled "q" and "w", and one that waits
    in the search bar; [range] is what was selected when the bar opened. *)
Definition twoMatches : list Match.t := stackedMatches 2.

Definition waitingSession (range : option DomRange) : Session.t :=
  Session.mk [] [] false true true range 0 (Some SearchInputRange).

Definition idleSession (range : option DomRange) : Session.t :=
  Session.mk [] [] false false false None 0 range.

Definition altPress (time : Z) : KeyboardEvent.t :=
  KeyboardEvent.mk (lit "Alt") false time.

(** The keys of a label pressed one after the other. *)
Definition typeKeys (toLowerCase : jsstring -> jsstring)
    (detached : option DomRange) (s : Session.t) (keys : jsstring)
    : Session.t :=
  fold_left (fun s c => handleKeyDown toLowerCase detached s (keyOf c))
            keys s.

(** The label of entry [i] among [count] entries, as [renderHints] reads it. *)
Definition labelOf (count i : nat) : jsstring :=
  toString (labelAt (generateLabels count) i).

(** A boolean check on the labels of [count] entries: pairwise distinct, all
    of length 1 (up to twelve entries) or all of length 2, made of alphabet
    symbols. *)
Definition labelsUniform (count : nat) : bool :=
  let labels := map (labelOf count) (seq 0 count) in
  distinctb (map Some labels)
  && forallb
       (fun l =>
          (length l =? (if count <=? 12 then 1 else 2))
          && forallb (fun c => existsb (N.eqb c) characters) l)
       labels.

Definition escapePress : KeyboardEvent.t :=
  KeyboardEvent.mk (lit "Escape") false 0.

(** The session after two candidates were found from a search bar opened on
    the selection [range], with the range 9 selected now. *)
Definition twoHintSession (range : option DomRange) : Session.t :=
  Session.mk (renderHints page twoMatches (generateLabels 2)) [] true false
             false range 0 (Some (HostRange 9)).
(* ================================================================== *)
(** * Properties *)

(** ** Label generator *)

Lemma nth_error_map_seq (A : Type) (f : nat -> A) (n i : nat) :
  i < n -> nth_error (map f (seq 0 n)) i = Some (f i).
Proof.
  intros Hi.
  rewrite nth_error_map, nth_error_seq.
  destruct (Nat.ltb_spec i n); [reflexivity | lia].
Qed.

Lemma generateLabels_length (count : nat) :
  length (generateLabels count) = count.
Proof.
  unfold generateLabels.
  destruct (count <=? length characters);
    now rewrite length_map, length_seq.
Qed.

Lemma characters_index (a : nat) :
  a < 12 ->
  exists c, index characters a = Some [c]
            /\ existsb (N.eqb c) characters = true.
Proof.
  intros Ha.
  do 12 (destruct a as [|a]; [eexists; split; vm_compute; reflexivity|]).
  lia.
Qed.

(** C2, as the code has it: [count] labels; up to twelve entries get the
    successive one-symbol labels; from thirteen to 144 entries every entry,
    the first twelve included, gets the two-symbol label
    [alphabet[i / 12]] [alphabet[i mod 12]] with [i] its zero-based index among
    all entries; all symbols come from the alphabet. *)
Theorem generateLabels_scheme (count i : nat) :
  i < count -> count <= 144 ->
  length (generateLabels count) = count
  /\ nth_error (generateLabels count) i = Some (code_label count i)
  /\ overAlphabet (code_label count i) = true
  /\ labelLength (code_label count i) = (if count <=? 12 then 1 else 2).
Proof.
  intros Hi Hc.
  split; [apply generateLabels_length|].
  split.
  - unfold generateLabels, code_label.
    change (length characters) with 12.
    destruct (count <=? 12); now rewrite nth_error_map_seq.
  - unfold code_label.
    destruct (Nat.leb_spec count 12) as [Hle|Hgt].
    + destruct (characters_index i) as (c & -> & Hc'); [lia|].
      split; [|reflexivity].
      cbn [overAlphabet forallb]. now rewrite Hc'.
    + assert (H1 : i / 12 < 12) by (apply Nat.Div0.div_lt_upper_bound; lia).
      assert (H2 : i mod 12 < 12) by (apply Nat.mod_upper_bound; lia).
      destruct (characters_index _ H1) as (c1 & -> & Hc1).
      destruct (characters_index _ H2) as (c2 & -> & Hc2).
      split; [|reflexivity].
      cbn [overAlphabet forallb add toString app]. now rewrite Hc1, Hc2.
Qed.

Lemma generateLabels_scheme_witness :
  nth_error (generateLabels 14) 13 = Some (Some (lit "ww")).
Proof.
  destruct (generateLabels_scheme 14 13) as (_ & H & _); [lia | lia |].
  exact H.
Defined.

(** C2 as worded fails: with thirteen entries the first label is the pair
    "qq", where the wording promises the single symbol "q"; and with 145
    entries the last label is not made of alphabet symbols. *)
Lemma generateLabels_not_spec_label :
  ~ (forall i, i < 13 -> nth_error (generateLabels 13) i = Some (spec_label i))
  /\ ~ (forall v, In v (generateLabels 145) -> overAlphabet v = true).
Proof.
  split.
  - intros H. specialize (H 0 ltac:(lia)). vm_compute in H. discriminate H.
  - intros H. specialize (H (Some (lit "undefinedq"))).
    assert (Hin : In (Some (lit "undefinedq")) (generateLabels 145)).
    { apply (nth_error_In _ 144). vm_compute. reflexivity. }
    specialize (H Hin). vm_compute in H. discriminate H.
Qed.

Lemma eqs_refl (a : jsstring) : eqs a a = true.
Proof. induction a; simpl; [easy | now rewrite N.eqb_refl]. Qed.

Lemma memb_complete v l : In v l -> memb v l = true.
Proof.
  induction l as [|w l IH]; simpl; [easy|].
  intros [->|H].
  - destruct v; [now rewrite eqs_refl | reflexivity].
  - rewrite (IH H). apply orb_true_r.
Qed.

Lemma distinctb_NoDup l : distinctb l = true -> NoDup l.
Proof.
  induction l as [|v l IH]; simpl; [constructor|].
  intros H. apply andb_prop in H as [Hm Hd].
  constructor; [|now apply IH].
  intros Hin. apply memb_complete in Hin. now rewrite Hin in Hm.
Qed.





(** ** Strings *)

Lemma startsWith_nil (s : jsstring) : startsWith s [] = true.
Proof. now destruct s. Qed.

Lemma startsWith_firstn (s q : jsstring) :
  startsWith s q = true <->
  length q <= length s /\ firstn (length q) s = q.
Proof.
  revert s. induction q as [|y q IH]; intros s.
  - rewrite startsWith_nil. simpl. split; [split; [lia | easy] | easy].
  - destruct s as [|x s]; simpl.
    + split; [easy | intros [H _]; lia].
    + rewrite andb_true_iff, N.eqb_eq, IH. split.
      * intros (-> & Hl & Hq). split; [lia | now rewrite Hq].
      * intros (Hl & Hq). injection Hq as -> Hq. repeat split; [lia | easy].
Qed.

Lemma eqs_eq (a b : jsstring) : eqs a b = true <-> a = b.
Proof.
  revert b. induction a as [|x a IH]; intros [|y b]; simpl; try easy.
  rewrite andb_true_iff, N.eqb_eq, IH. split.
  - now intros [-> ->].
  - intros H. now injection H.
Qed.

Lemma findFrom_nil (s : jsstring) (k : nat) : findFrom [] s k = Some k.
Proof. destruct s; reflexivity. Qed.

Lemma findFrom_None (q s : jsstring) (k : nat) :
  findFrom q s k = None -> occs q s k = [].
Proof.
  revert k. induction s as [|x s IH]; intros k; cbn [findFrom occs].
  - destruct (startsWith [] q); [discriminate | reflexivity].
  - destruct (startsWith (x :: s) q); [discriminate|]. simpl. apply IH.
Qed.

(** A first occurrence splits the list of occurrences. *)
Lemma findFrom_Some (q s : jsstring) (k n : nat) :
  q <> [] ->
  findFrom q s k = Some n ->
  k <= n /\ n - k < length s
  /\ occs q s k = Z.of_nat n :: occs q (skipn (S (n - k)) s) (S n).
Proof.
  intros Hq. revert k. induction s as [|x s IH]; intros k; cbn [findFrom occs].
  - destruct q; [easy | discriminate].
  - destruct (startsWith (x :: s) q) eqn:E.
    + intros [= <-]. rewrite Nat.sub_diag. simpl. repeat split; lia.
    + intros H. apply IH in H as (H1 & H2 & H3).
      replace (n - k) with (S (n - S k)) by lia.
      simpl. repeat split; [lia | lia | exact H3].
Qed.

Lemma occs_spec (q s : jsstring) (k : nat) (i : Z) :
  In i (occs q s k) <->
  exists j, i = Z.of_nat (k + j) /\ j <= length s
            /\ startsWith (skipn j s) q = true.
Proof.
  revert k. induction s as [|x s IH]; intros k; simpl.
  - rewrite app_nil_r. split.
    + destruct (startsWith [] q) eqn:E; [|easy].
      intros [<-|[]]. exists 0. rewrite Nat.add_0_r. now simpl.
    + intros (j & -> & Hj & H). assert (j = 0) as -> by lia.
      simpl in H. rewrite H, Nat.add_0_r. now left.
  - rewrite in_app_iff, IH. split.
    + intros [H|(j & -> & Hj & H)].
      * destruct (startsWith (x :: s) q) eqn:E; [|easy].
        destruct H as [<-|[]]. exists 0. rewrite Nat.add_0_r.
        simpl. repeat split; [lia | exact E].
      * exists (S j). simpl. repeat split; [f_equal; lia | lia | exact H].
    + intros (j & -> & Hj & H). destruct j as [|j].
      * left. simpl in H. rewrite H, Nat.add_0_r. now left.
      * right. exists j. simpl in H. repeat split; [f_equal; lia | lia | exact H].
Qed.

Lemma occurrences_occursAt (t q : jsstring) (i : Z) :
  In i (occurrences t q) <-> occursAt t q i.
Proof.
  unfold occurrences, occursAt, len. rewrite occs_spec. split.
  - intros (j & -> & Hj & H). simpl.
    apply startsWith_firstn in H as [Hl H].
    rewrite length_skipn in Hl. rewrite Nat2Z.id.
    repeat split; [lia | lia | exact H].
  - intros (H0 & Hl & H). exists (Z.to_nat i). simpl.
    repeat split; [lia | lia |].
    apply startsWith_firstn. rewrite length_skipn. split; [lia | exact H].
Qed.

Lemma includes_occurrences (t q : jsstring) :
  q <> [] -> (includes t q = true <-> occurrences t q <> []).
Proof.
  intros Hq. unfold includes, occurrences.
  destruct (findFrom q t 0) eqn:E.
  - apply (findFrom_Some _ _ _ _ Hq) in E as (_ & _ & ->). easy.
  - rewrite (findFrom_None _ _ _ E). easy.
Qed.

Lemma includes_found (t q : jsstring) :
  includes t q = true <->
  exists j, j <= length t /\ startsWith (skipn j t) q = true.
Proof.
  unfold includes.
  assert (G : forall s k,
             (exists n, findFrom q s k = Some n) <->
             exists j, j <= length s /\ startsWith (skipn j s) q = true).
  { induction s as [|x s IH]; intros k; simpl.
    - destruct (startsWith [] q) eqn:E.
      + split; [exists 0; now simpl | now exists k].
      + split; [now intros [n H] |].
        intros (j & Hj & H). assert (j = 0) as -> by lia.
        simpl in H. congruence.
    - destruct (startsWith (x :: s) q) eqn:E.
      + split; [exists 0; simpl; split; [lia | easy] | now exists k].
      + rewrite IH. split.
        * intros (j & Hj & H). exists (S j). simpl. split; [lia | easy].
        * intros (j & Hj & H). destruct j as [|j]; simpl in H; [congruence|].
          exists j. split; [lia | easy]. }
  rewrite <- (G t 0).
  destruct (findFrom q t 0); split; try easy; [now exists n | now intros [n H]].
Qed.

(** ** The loop over [indexOf] *)

Lemma whileIndex_steps (A : Type) (t q : jsstring) (body : Z -> A -> A) :
  q <> [] ->
  forall fuel k acc,
    k <= length t ->
    length t - k < fuel ->
    whileIndex fuel t q body
      (match findFrom q (skipn k t) k with
       | Some n => Z.of_nat n
       | None => -1
       end)%Z acc
    = Some (fold_left (fun a i => body i a) (occs q (skipn k t) k) acc).
Proof.
  intros Hq. induction fuel as [|fuel IH]; intros k acc Hk Hf; [lia|].
  destruct (findFrom q (skipn k t) k) as [n|] eqn:E.
  - destruct (findFrom_Some _ _ _ _ Hq E) as (H1 & H2 & ->).
    rewrite length_skipn in H2.
    cbn [whileIndex fold_left].
    destruct (Z.eqb_spec (Z.of_nat n) (-1)); [lia|].
    rewrite skipn_skipn.
    replace (S (n - k) + k) with (S n) by lia.
    rewrite <- (IH (S n) (body (Z.of_nat n) acc)) by lia.
    f_equal. unfold indexOf, len.
    replace (Z.to_nat (Z.max 0 (Z.min (Z.of_nat n + 1) (Z.of_nat (length t)))))
      with (S n) by lia.
    reflexivity.
  - rewrite (findFrom_None _ _ _ E). now destruct fuel.
Qed.

(** With a non-empty needle, [length t + 1] iterations or more end the loop,
    which has then run its body on every occurrence in increasing order. *)
Lemma whileIndex_enough (A : Type) (t q : jsstring) (body : Z -> A -> A)
    (fuel : nat) (acc : A) :
  q <> [] ->
  length t < fuel ->
  whileIndex fuel t q body (indexOf t q 0) acc
  = Some (fold_left (fun a i => body i a) (occurrences t q) acc).
Proof.
  intros Hq Hf.
  pose proof (whileIndex_steps A t q body Hq fuel 0 acc
                ltac:(lia) ltac:(lia)) as H.
  unfold indexOf, occurrences.
  replace (Z.to_nat (Z.max 0 (Z.min 0 (len t)))) with 0
    by (unfold len; lia).
  exact H.
Qed.

(** With the empty needle no number of iterations ends the loop. *)
Lemma whileIndex_empty (A : Type) (t : jsstring) (body : Z -> A -> A)
    (fuel : nat) (index : Z) (acc : A) :
  (0 <= index)%Z ->
  whileIndex fuel t [] body index acc = None.
Proof.
  revert index acc. induction fuel as [|fuel IH]; intros index acc Hi; simpl;
    (destruct (Z.eqb_spec index (-1)); [lia|]); [reflexivity|].
  apply IH. unfold indexOf. rewrite findFrom_nil. lia.
Qed.

Lemma forEachIndex_nonempty (A : Type) (t q : jsstring) (body : Z -> A -> A)
    (acc : A) :
  q <> [] ->
  forEachIndex t q body acc
  = Done (fold_left (fun a i => body i a) (occurrences t q) acc).
Proof.
  intros Hq. unfold forEachIndex. now rewrite whileIndex_enough by (easy || lia).
Qed.

Lemma forEachIndex_empty (A : Type) (t : jsstring) (body : Z -> A -> A)
    (acc : A) :
  forEachIndex t [] body acc = NoReturn.
Proof.
  unfold forEachIndex. rewrite whileIndex_empty; [reflexivity|].
  unfold indexOf. rewrite findFrom_nil. lia.
Qed.

(** ** Deduplication *)

Lemma keepFirst_extends (l u : list Match.t) :
  exists rest, fold_left keepFirst l u = u ++ rest /\ incl rest l.
Proof.
  revert u. induction l as [|c l IH]; intros u; simpl.
  - exists []. split; [now rewrite app_nil_r | easy].
  - destruct (IH (keepFirst u c)) as (rest & -> & Hincl).
    unfold keepFirst. destruct (negb _).
    + exists (c :: rest). split; [now rewrite <- app_assoc|].
      intros x [<-|Hx]; [now left | right; now apply Hincl].
    + exists rest. split; [reflexivity|].
      intros x Hx. right. now apply Hincl.
Qed.






(** The differences are rounded as doubles are: 5 - 2^-60 is the double 5,
    which is not below 5, so candidates that start at 5 and at 2^-60 are
    both kept; one that starts at 1 is merged into the one at 5. *)
Lemma removeDuplicateMatches_rounds :
  removeDuplicateMatches [matchAtLeft 5; matchAtLeft 0x1p-60]
  = [matchAtLeft 5; matchAtLeft 0x1p-60]
  /\ removeDuplicateMatches [matchAtLeft 5; matchAtLeft 1] = [matchAtLeft 5].
Proof. split; vm_compute; reflexivity. Qed.

(** ** Hints *)

Lemma generateLabels_truthy (count i : nat) :
  i < count -> truthy (labelAt (generateLabels count) i) = true.
Proof.
  intros Hi. unfold labelAt, generateLabels.
  change (length characters) with 12.
  destruct (Nat.leb_spec count 12) as [Hle|Hgt];
    rewrite nth_error_map_seq by exact Hi.
  - destruct (characters_index i) as (c & -> & _); [lia | reflexivity].
  - destruct (characters_index (i mod 12)) as (c & -> & _).
    + apply Nat.mod_upper_bound. lia.
    + unfold add. now destruct (toString (index characters (i / 12))).
Qed.


(** C9 at 145 deduplicated candidates: the last one is not left out; it gets
    the label "undefinedq" and a hint. *)
Theorem renderHints_beyond_capacity :
  removeDuplicateMatches (stackedMatches 145) = stackedMatches 145
  /\ nth_error (generateLabels 145) 144 = Some (Some (lit "undefinedq"))
  /\ length (renderHints page (stackedMatches 145) (generateLabels 145)) = 145
  /\ map Hint.label
         (skipn 144 (renderHints page (stackedMatches 145)
                                 (generateLabels 145)))
     = [lit "undefinedq"].
Proof. repeat split; vm_compute; reflexivity. Qed.

(** ** Session state machine *)

Lemma eqs_length (a b : jsstring) : length a <> length b -> eqs a b = false.
Proof.
  intros H. destruct (eqs a b) eqn:E; [|reflexivity].
  apply eqs_eq in E. now subst.
Qed.

Lemma eqs_neq (a b : jsstring) : a <> b -> eqs a b = false.
Proof.
  intros H. destruct (eqs a b) eqn:E; [|reflexivity].
  now apply eqs_eq in E.
Qed.

Lemma includes_unit (s : jsstring) (c : N) :
  In c s -> includes s [c] = true.
Proof.
  intros H. apply in_split in H as (l1 & l2 & ->).
  apply includes_found. exists (length l1). split.
  - rewrite length_app. lia.
  - rewrite skipn_app, skipn_all, Nat.sub_diag. simpl.
    now rewrite N.eqb_refl.
Qed.

Section Leaving.

Variable detached : option DomRange.

Lemma deactivate_facts (s : Session.t) :
  (Session.active (deactivate detached s) = false
   /\ Session.waitingForInput (deactivate detached s) = false
   /\ Session.searchBar (deactivate detached s) = false
   /\ Session.hints (deactivate detached s) = []
   /\ Session.savedRange (deactivate detached s) = None)
  /\ Session.inputBuffer (deactivate detached s) = Session.inputBuffer s
  /\ Session.lastAltPressTime (deactivate detached s)
     = Session.lastAltPressTime s
  /\ Session.selection (deactivate detached s)
     = match Session.savedRange s with
       | Some range => Some range
       | None => Session.selection (closeSearchBar detached s)
       end.
Proof.
  unfold deactivate, closeSearchBar. destruct s as [h b a w sb [r|] t sel];
    now repeat split.
Qed.

(** Taking the bar out of the document leaves a selection that is not in
    its input where it is. *)
Lemma closeSearchBar_selection (s : Session.t) :
  Session.searchBar s = false
  \/ Session.selection s <> Some SearchInputRange ->
  Session.selection (closeSearchBar detached s) = Session.selection s.
Proof.
  unfold closeSearchBar. cbn [Session.selection].
  intros [-> | H]; [reflexivity|].
  destruct (Session.searchBar s); [|reflexivity].
  destruct (Session.selection s) as [[| |]|]; try reflexivity.
  now destruct H.
Qed.

(** After a jump the session is left, and the selection is the caret that
    was asked for. *)
Lemma jump_facts (s : Session.t) (node : TextNode.t) (index length : Z) :
  let t := deactivate detached (jumpTo s node index length) in
  Session.selection t = Some (JumpRange node index length)
  /\ Session.active t = false
  /\ Session.waitingForInput t = false
  /\ Session.searchBar t = false
  /\ Session.hints t = []
  /\ Session.savedRange t = None
  /\ Session.inputBuffer t = Session.inputBuffer s.
Proof.
  unfold deactivate, closeSearchBar, jumpTo. cbn.
  destruct (Session.searchBar s); now repeat split.
Qed.

End Leaving.

Section Keystrokes.

Variable toLowerCase : jsstring -> jsstring.
Variable detached : option DomRange.

(** C3: in the active state, for a key other than Alt whose lower case is
    one symbol of the label alphabet: if a hint has the buffer followed by
    the key as its label, the selection is put on the span of the first such
    hint and the session is left (no hints, not active; the buffer itself is
    not written); else, if some label starts with the buffer followed by the
    key, that becomes the buffer and nothing else changes; else nothing
    changes at all. For the key "backspace" the buffer loses its last unit
    and nothing else changes; on the empty buffer nothing changes. *)
Theorem handleKeyDown_active (s : Session.t) (e : KeyboardEvent.t) :
  Session.active s = true ->
  Session.waitingForInput s = false ->
  KeyboardEvent.repeat e = false ->
  KeyboardEvent.key e <> lit "Alt" ->
  let s' := handleKeyDown toLowerCase detached s e in
  let key := toLowerCase (KeyboardEvent.key e) in
  (forall c,
      key = [c] -> In c characters ->
      let nextBuffer := Session.inputBuffer s ++ [c] in
      let hints := Session.hints s in
      (existsb (fun h => eqs (Hint.label h) nextBuffer) hints = true ->
       exists h,
         find (fun h => eqs (Hint.label h) nextBuffer) hints = Some h
         /\ In h hints /\ Hint.label h = nextBuffer
         /\ Session.selection s'
            = Some (JumpRange (Hint.node h) (Hint.index h) (Hint.length h))
         /\ Session.active s' = false
         /\ Session.waitingForInput s' = false
         /\ Session.searchBar s' = false
         /\ Session.hints s' = []
         /\ Session.savedRange s' = None
         /\ Session.inputBuffer s' = Session.inputBuffer s)
      /\ (existsb (fun h => eqs (Hint.label h) nextBuffer) hints = false ->
          existsb (fun h => startsWith (Hint.label h) nextBuffer) hints = true ->
          Session.inputBuffer s' = nextBuffer
          /\ Session.hints s' = hints
          /\ Session.active s' = true
          /\ Session.waitingForInput s' = false
          /\ Session.selection s' = Session.selection s
          /\ Session.savedRange s' = Session.savedRange s)
      /\ (existsb (fun h => startsWith (Hint.label h) nextBuffer) hints = false ->
          s' = s))
  /\ (key = lit "backspace" ->
      Session.inputBuffer s' = removelast (Session.inputBuffer s)
      /\ Session.hints s' = Session.hints s
      /\ Session.active s' = true
      /\ Session.waitingForInput s' = false
      /\ Session.selection s' = Session.selection s
      /\ Session.savedRange s' = Session.savedRange s
      /\ (Session.inputBuffer s = [] -> s' = s)).
Proof.
  intros Hact Hwait Hrep Halt s' key. subst s'. unfold handleKeyDown.
  rewrite Hrep, Hact, Hwait, (eqs_neq _ _ Halt). cbn [negb andb orb].
  fold key. split.
  - intros c Hc Hin.
    set (nextBuffer := Session.inputBuffer s ++ [c]).
    set (hints := Session.hints s).
    rewrite Hc.
    rewrite (eqs_length [c] (lit "escape")) by discriminate.
    rewrite (eqs_length [c] (lit "backspace")) by discriminate.
    rewrite (includes_unit _ _ Hin).
    unfold checkHints. fold nextBuffer. fold hints.
    split; [|split].
    + intros Hex.
      destruct (find (fun h => eqs (Hint.label h) nextBuffer) hints)
        as [h|] eqn:F.
      * pose proof (find_some _ _ F) as [Hh Hl]. apply eqs_eq in Hl.
        exists h.
        destruct (jump_facts detached s (Hint.node h) (Hint.index h)
                             (Hint.length h))
          as (Hsel & Ha & Hw & Hsb & Hhs & Hsv & Hbuf).
        repeat split; assumption.
      * apply existsb_exists in Hex as (h & Hh & Hl).
        now rewrite (find_none _ _ F h Hh) in Hl.
    + intros Hno Hpre.
      destruct (find (fun h => eqs (Hint.label h) nextBuffer) hints)
        as [h|] eqn:F.
      * apply find_some in F as [Hh Hl].
        assert (existsb (fun h => eqs (Hint.label h) nextBuffer) hints = true)
          by (apply existsb_exists; now exists h).
        congruence.
      * apply existsb_exists in Hpre as (h & Hh & Hl).
        assert (Hf : In h (filter (fun h => startsWith (Hint.label h) nextBuffer)
                                  hints)) by (apply filter_In; now split).
        destruct (filter _ hints); [destruct Hf|].
        cbn [length Nat.ltb Nat.leb setBuffer Session.inputBuffer
             Session.hints Session.active Session.waitingForInput
             Session.selection Session.savedRange].
        now repeat split.
    + intros Hpre.
      destruct (find (fun h => eqs (Hint.label h) nextBuffer) hints)
        as [h|] eqn:F.
      * apply find_some in F as [Hh Hl]. apply eqs_eq in Hl.
        assert (existsb (fun h => startsWith (Hint.label h) nextBuffer) hints
                = true).
        { apply existsb_exists. exists h. split; [exact Hh|].
          apply startsWith_firstn. rewrite Hl, firstn_all. now split. }
        congruence.
      * destruct (filter _ hints) as [|h l] eqn:Ef; [reflexivity|].
        assert (Hf : In h (filter (fun h => startsWith (Hint.label h) nextBuffer)
                                  hints)) by (rewrite Ef; now left).
        apply filter_In in Hf as [Hh Hl].
        assert (existsb (fun h => startsWith (Hint.label h) nextBuffer) hints
                = true) by (apply existsb_exists; now exists h).
        congruence.
  - intros Hb. rewrite Hb.
    change (eqs (lit "backspace") (lit "escape")) with false.
    change (eqs (lit "backspace") (lit "backspace")) with true.
    cbn iota. unfold sliceInit.
    destruct (Session.inputBuffer s) as [|x b] eqn:Eb.
    + cbn [length Nat.ltb Nat.leb removelast]. now repeat split.
    + cbn [length Nat.ltb Nat.leb setBuffer Session.inputBuffer
           Session.hints Session.active Session.waitingForInput
           Session.selection Session.savedRange].
      repeat split; try assumption. discriminate.
Qed.

End Keystrokes.

(** The example of the specification: with hints "a" and "sd", the key "s"
    leaves the buffer "s", then "d" jumps to the second hint; the key "q"
    changes nothing; Backspace empties the buffer "s". *)
Lemma handleKeyDown_active_witness :
  Session.inputBuffer (handleKeyDown lowerCase None (activeSession []) (press "s"))
  = lit "s"
  /\ Session.selection
       (handleKeyDown lowerCase None (activeSession (lit "s")) (press "d"))
     = Some (JumpRange (Hint.node hintSD) 0 3)
  /\ handleKeyDown lowerCase None (activeSession []) (press "q")
     = activeSession []
  /\ Session.inputBuffer
       (handleKeyDown lowerCase None (activeSession (lit "s")) (press "Backspace"))
     = [].
Proof.
  pose proof (handleKeyDown_active lowerCase None (activeSession []) (press "s")
                eq_refl eq_refl eq_refl ltac:(discriminate)) as [Hs _].
  pose proof (handleKeyDown_active lowerCase None (activeSession (lit "s"))
                (press "d") eq_refl eq_refl eq_refl ltac:(discriminate))
    as [Hd _].
  pose proof (handleKeyDown_active lowerCase None (activeSession []) (press "q")
                eq_refl eq_refl eq_refl ltac:(discriminate)) as [Hq _].
  pose proof (handleKeyDown_active lowerCase None (activeSession (lit "s"))
                (press "Backspace") eq_refl eq_refl eq_refl
                ltac:(discriminate)) as [_ Hb].
  split; [|split; [|split]].
  - destruct (Hs 115%N eq_refl) as (_ & H & _).
    + vm_compute. intuition reflexivity.
    + apply H; reflexivity.
  - destruct (Hd 100%N eq_refl) as (H & _).
    + vm_compute. intuition reflexivity.
    + destruct (H eq_refl) as (h & _ & Hh & Hl & Hsel & _).
      rewrite Hsel.
      destruct Hh as [<-|[<-|[]]]; [discriminate Hl | reflexivity].
  - destruct (Hq 113%N eq_refl) as (_ & _ & H).
    + vm_compute. intuition reflexivity.
    + apply H; reflexivity.
  - destruct (Hb eq_refl) as [H _]. exact H.
Defined.

(** ** Query matcher *)

Lemma push_all (l acc : list Z) :
  fold_left (fun indices index => indices ++ [index]) l acc = acc ++ l.
Proof.
  revert acc. induction l as [|x l IH]; intros acc; simpl.
  - now rewrite app_nil_r.
  - now rewrite IH, <- app_assoc.
Qed.

Lemma splitFrom_no_white (s : jsstring) :
  forallb (fun c => negb (isWhite c)) s = true -> splitFrom false s = [s].
Proof.
  induction s as [|c s IH]; cbn [forallb splitFrom]; [reflexivity|].
  intros H. apply andb_true_iff in H as [Hc Hs].
  apply negb_true_iff in Hc. now rewrite Hc, (IH Hs).
Qed.

Lemma occs_increasing (q s : jsstring) (k : nat) :
  StronglySorted Z.lt (occs q s k).
Proof.
  revert k. induction s as [|x s IH]; intros k; cbn [occs].
  - destruct (startsWith [] q); repeat constructor.
  - assert (Htail : Forall (Z.lt (Z.of_nat k)) (occs q s (S k))).
    { apply Forall_forall. intros i Hi.
      apply occs_spec in Hi as (j & -> & _). lia. }
    destruct (startsWith (x :: s) q); simpl; [|apply IH].
    constructor; [apply IH | exact Htail].
Qed.

Lemma isEmpty_nil (s : jsstring) : isEmpty s = true <-> s = [].
Proof. now destruct s. Qed.

Lemma isEmpty_false (s : jsstring) : isEmpty s = false <-> s <> [].
Proof. now destruct s. Qed.

Lemma includes_nil (s : jsstring) : includes s [] = true.
Proof.
  apply includes_found. exists 0. split; [lia | apply startsWith_nil].
Qed.

Section Matcher.

Variable toLowerCase : jsstring -> jsstring.
Variable pinyinPro : jsstring -> PinyinOutput.

Let matchOf := matchPinyin toLowerCase pinyinPro.
Let indicesOf := findMatchIndices toLowerCase.

(** [findMatchIndices] returns exactly when the lower-cased query is not
    empty, and then lists the offsets at which it occurs in the lower-cased
    text. *)
Lemma findMatchIndices_nonempty (text query : jsstring) :
  toLowerCase query <> [] ->
  indicesOf text query = Done (occurrences (toLowerCase text) (toLowerCase query)).
Proof.
  intros H. unfold indicesOf, findMatchIndices.
  rewrite forEachIndex_nonempty by exact H.
  now rewrite push_all.
Qed.

Lemma findMatchIndices_empty (text query : jsstring) :
  toLowerCase query = [] -> indicesOf text query = NoReturn.
Proof.
  intros H. unfold indicesOf, findMatchIndices.
  rewrite H. apply forEachIndex_empty.
Qed.

Lemma findMatchIndices_run (text query : jsstring) :
  indicesOf text query
  = if isEmpty (toLowerCase query) then NoReturn
    else Done (occurrences (toLowerCase text) (toLowerCase query)).
Proof.
  destruct (isEmpty (toLowerCase query)) eqn:E.
  - apply findMatchIndices_empty. now apply isEmpty_nil.
  - apply findMatchIndices_nonempty. now apply isEmpty_false.
Qed.

(** The strategies of the loop over the sub-tokens. *)
Let partStrategies (textPinyin textInitials : jsstring)
    (parts : list jsstring) : list Strategy.t :=
  flat_map
    (fun sub =>
       [ Strategy.mk (includes (toLowerCase textPinyin) sub) partial_pinyin
                     (Some textPinyin) sub;
         Strategy.mk (includes textInitials sub) partial_initials
                     (Some textInitials) sub ])
    parts.

Lemma matchParts_first_success (textStr textPinyin textInitials : jsstring)
    (parts : list jsstring) :
  matchParts toLowerCase textStr textPinyin textInitials parts
  = outcomeOf toLowerCase textStr
      (spec_firstSuccess (partStrategies textPinyin textInitials parts)).
Proof.
  induction parts as [|part rest IH]; cbn [matchParts]; [reflexivity|].
  unfold partStrategies, spec_firstSuccess.
  cbn [flat_map app find Strategy.succeeds].
  fold indicesOf.
  destruct (includes (toLowerCase textPinyin) part).
  - rewrite findMatchIndices_run. unfold outcomeOf, haystack, found.
    cbn [Strategy.needle Strategy.pinyin Strategy.type].
    now destruct (isEmpty (toLowerCase part)).
  - destruct (includes textInitials part).
    + rewrite findMatchIndices_run. unfold outcomeOf, haystack, found.
      cbn [Strategy.needle Strategy.pinyin Strategy.type].
      now destruct (isEmpty (toLowerCase part)).
    + exact IH.
Qed.

(** The text that [matchPinyin] works on. *)
Let textOf (searchText : SearchText) : jsstring :=
  match searchText with
  | Arr a => join [] a
  | Str s => s
  end.

(** [matchPinyin] makes the outcome of the first strategy that succeeds, in
    the order of [spec_strategies]. *)
Lemma matchPinyin_first_success (searchText : SearchText)
    (query : jsstring) :
  falsyText searchText || isEmpty query = false ->
  matchOf searchText query
  = outcomeOf toLowerCase (textOf searchText)
      (spec_firstSuccess
         (spec_strategies toLowerCase pinyinPro (textOf searchText) query)).
Proof.
  intros Hnull. unfold matchOf, matchPinyin. rewrite Hnull.
  fold (textOf searchText). set (textStr := textOf searchText).
  unfold spec_strategies, spec_firstSuccess.
  cbn [app find Strategy.succeeds]. fold indicesOf.
  set (spaced := join (lit " ") (getPinyin pinyinPro textStr)).
  set (packed := join [] (getPinyin pinyinPro textStr)).
  set (inits := getPinyinInitials toLowerCase pinyinPro textStr).
  assert (Hone : forall ty py hay,
             hay = match py with Some p => p | None => textStr end ->
             (indices <- indicesOf hay query ;;
              Done (found ty py textStr indices))
             = outcomeOf toLowerCase textStr
                 (Some (Strategy.mk true ty py query))).
  { intros ty py hay ->. rewrite findMatchIndices_run.
    unfold outcomeOf, haystack, found.
    cbn [Strategy.needle Strategy.pinyin Strategy.type].
    now destruct (isEmpty (toLowerCase query)). }
  destruct (includes textStr query); [now apply Hone|].
  destruct (includes (toLowerCase spaced) (toLowerCase query)); [now apply Hone|].
  destruct (includes (toLowerCase packed) (toLowerCase query)); [now apply Hone|].
  destruct (includes inits (toLowerCase query)); [now apply Hone|].
  apply matchParts_first_success.
Qed.

(** Every strategy looks for the query or for one of the sub-tokens of its
    lower case, and gives a type other than [none]. *)
Lemma spec_strategies_needle (text token : jsstring) (st : Strategy.t) :
  In st (spec_strategies toLowerCase pinyinPro text token) ->
  Strategy.type st <> none
  /\ (Strategy.pinyin st = None <-> Strategy.type st = direct)
  /\ (if isPartial (Strategy.type st)
      then In (Strategy.needle st) (splitWhite (toLowerCase token))
      else Strategy.needle st = token)
  /\ (Strategy.type st = pinyin ->
      Strategy.succeeds st
      = includes (toLowerCase (haystack text st)) (toLowerCase (Strategy.needle st))).
Proof.
  unfold spec_strategies. intros H.
  apply in_app_iff in H as [H|H].
  - destruct H as [<-|[<-|[<-|[<-|[]]]]]; cbn;
      (split; [discriminate|]); (split; [split; easy|]);
      (split; [reflexivity|]); easy.
  - apply in_flat_map in H as (sub & Hsub & [<-|[<-|[]]]); cbn;
      (split; [discriminate|]); (split; [split; easy|]);
      (split; [exact Hsub|]); easy.
Qed.


(** When lower-casing gives no empty string for a non-empty one and no
    sub-token of the lower-cased token is empty, the first success has a
    needle that is not empty once lower-cased, and its outcome is
    returned. *)
Lemma matchPinyin_returns (text token : jsstring) :
  text <> [] -> token <> [] ->
  keepsNonEmpty toLowerCase ->
  Forall (fun sub => sub <> []) (splitWhite (toLowerCase token)) ->
  let first :=
    spec_firstSuccess (spec_strategies toLowerCase pinyinPro text token) in
  exists o,
    matchOf (Str text) token = Done (Some o)
    /\ PinyinMatchResult.type o
       = match first with Some st => Strategy.type st | None => none end
    /\ PinyinMatchResult.pinyin o
       = match first with Some st => Strategy.pinyin st | None => None end
    /\ (PinyinMatchResult.matched o = true <-> first <> None)
    /\ (PinyinMatchResult.matched o = true
        <-> PinyinMatchResult.type o <> none).
Proof.
  intros Ht Hq Hkeep Hparts first.
  assert (Hnull : falsyText (Str text) || isEmpty token = false).
  { destruct text; [easy|]. destruct token; [easy | reflexivity]. }
  rewrite (matchPinyin_first_success (Str text) token Hnull).
  cbn [textOf]. fold first. unfold outcomeOf.
  destruct first as [st|] eqn:F.
  - apply find_some in F as [Hin _].
    destruct (spec_strategies_needle _ _ _ Hin) as (Hty & _ & Hneedle & _).
    assert (Hne : Strategy.needle st <> []).
    { destruct (isPartial (Strategy.type st)).
      - rewrite Forall_forall in Hparts. now apply Hparts.
      - now rewrite Hneedle. }
    apply Hkeep in Hne. apply isEmpty_false in Hne. rewrite Hne.
    eexists. split; [reflexivity|]. cbn.
    repeat split; try easy.
  - eexists. split; [reflexivity|]. cbn.
    repeat split; try easy.
Qed.

Lemma matchPinyin_plain_returns (text query : jsstring) :
  text <> [] -> query <> [] ->
  keepsNonEmpty toLowerCase ->
  forallb (fun c => negb (isWhite c)) (toLowerCase query) = true ->
  exists o, matchOf (Str text) query = Done (Some o).
Proof.
  intros Ht Hq Hkeep Hw.
  destruct (matchPinyin_returns text query Ht Hq Hkeep) as (o & Ho & _);
    [|now exists o].
  unfold splitWhite. rewrite (splitFrom_no_white _ Hw).
  constructor; [|constructor].
  apply Hkeep. exact Hq.
Qed.



End Matcher.

(** ** The lower-casing of the closed examples *)

Lemma lowerCase_keepsNonEmpty : keepsNonEmpty lowerCase.
Proof.
  intros [|c s] H; [easy|]. unfold lowerCase. cbn [flat_map].
  unfold lowerUnits. destruct (c =? 304)%N; [discriminate|].
  destruct (_ && _); discriminate.
Qed.





(** ** Candidate collector *)

Lemma whileIndex_invariant (A : Type) (P : A -> Prop) (t q : jsstring)
    (body : Z -> A -> A) :
  (forall i a, P a -> P (body i a)) ->
  forall fuel index acc r,
    whileIndex fuel t q body index acc = Some r -> P acc -> P r.
Proof.
  intros Hbody. induction fuel as [|fuel IH]; intros index acc r; simpl;
    destruct (index =? -1)%Z; try discriminate;
    try (now intros [= <-]).
  intros H Hacc. apply (IH _ _ _ H). now apply Hbody.
Qed.

Lemma forEachIndex_invariant (A : Type) (P : A -> Prop) (t q : jsstring)
    (body : Z -> A -> A) (acc r : A) :
  (forall i a, P a -> P (body i a)) ->
  forEachIndex t q body acc = Done r -> P acc -> P r.
Proof.
  intros Hbody. unfold forEachIndex.
  destruct (whileIndex _ t q body _ acc) as [a|] eqn:E; [|discriminate].
  intros [= <-]. now apply (whileIndex_invariant A P t q body Hbody _ _ _ _ E).
Qed.

Lemma fold_left_invariant (A B : Type) (P : A -> Prop) (f : A -> B -> A)
    (l : list B) (acc : A) :
  (forall a b, In b l -> P a -> P (f a b)) -> P acc -> P (fold_left f l acc).
Proof.
  revert acc. induction l as [|b l IH]; intros acc Hf Hacc; simpl; [easy|].
  apply IH.
  - intros a b' Hin. apply Hf. now right.
  - apply Hf; [now left | exact Hacc].
Qed.

Lemma insertAsc_In (x y : Z) (l : list Z) :
  In x (insertAsc y l) -> x = y \/ In x l.
Proof.
  induction l as [|z l IH]; simpl.
  - intros [<-|[]]. now left.
  - destruct (y <=? z)%Z; simpl.
    + intros [<-|H]; [now left | now right].
    + intros [<-|H]; [right; now left|].
      destruct (IH H) as [->|Hin]; [now left | right; now right].
Qed.

Lemma sortAsc_In (x : Z) (l : list Z) : In x (sortAsc l) -> In x l.
Proof.
  induction l as [|y l IH]; simpl; [easy|].
  intros H. apply insertAsc_In in H as [->|H]; [now left | right; now apply IH].
Qed.

Ltac split_run H :=
  repeat match type of H with
         | context [bind ?r _] =>
             destruct r eqn:?; cbn [bind] in H; try discriminate H
         | context [match ?x with _ => _ end] =>
             destruct x eqn:?; try discriminate H
         end.

Section CollectorFacts.

Variable toLowerCase : jsstring -> jsstring.
Variable pinyinPro : jsstring -> PinyinOutput.
Variable win : Window.t.


Lemma findEnhancedMatchIndices_range (text query : jsstring)
    (indices : list Z) :
  findEnhancedMatchIndices toLowerCase pinyinPro text query = Done indices ->
  forall i, In i indices -> (0 <= i < len text)%Z.
Proof.
  unfold findEnhancedMatchIndices. intros H i Hi.
  assert (G : forall l, In i (filter (fun index : Z =>
                                        ((index >=? 0) && (index <? len text))%Z)
                                     l) -> (0 <= i < len text)%Z).
  { intros l Hin. apply filter_In in Hin as [_ Hin].
    apply andb_true_iff in Hin as [H1 H2]. lia. }
  destruct (if includes _ _ then _ else _) as [found|]; cbn [bind] in H;
    [|discriminate H].
  destruct ((length query =? 1) && (0 <? length found)).
  - injection H as <-. now apply G in Hi.
  - injection H as <-. apply sortAsc_In in Hi. now apply G in Hi.
Qed.







(** A turn of the loop over the nodes either leaves the matches as they are
    or is the scan of the keywords on the node, followed by the test against
    300. *)
Lemma scanNode_cases (keywords : list jsstring) (node : TextNode.t)
    (matches result : list Match.t) (leave : bool) :
  scanNode toLowerCase pinyinPro win keywords node matches
  = Done (result, leave) ->
  (result = matches
   \/ scanKeywords toLowerCase pinyinPro win node (TextNode.nodeValue node)
                   keywords matches = Done result)
  /\ (leave = false -> result = matches \/ length result <= 300).
Proof.
  unfold scanNode. intros H.
  split_run H; injection H as <- <-; (split; [tauto|]); try tauto.
  intros Hl. right. now apply Nat.ltb_ge.
Qed.



End CollectorFacts.

Section CollectorOrder.

Variable toLowerCase : jsstring -> jsstring.
Variable pinyinPro : jsstring -> PinyinOutput.
Variable win : Window.t.


Lemma pushDirect_occurrences (node : TextNode.t) (keyword : jsstring)
    (l : list Z) (acc : list Match.t) :
  let text := TextNode.nodeValue node in
  (forall i, In i l -> (0 <= i)%Z) ->
  fold_left (fun a i => pushDirect win node text keyword i a) l acc
  = acc
    ++ flat_map
         (fun index =>
            if (index + len keyword <=? len text)%Z then
              match visibleRange win node index (index + len keyword) with
              | Some (rect, rects) =>
                  [Match.mk node index (len keyword) rect rects
                     (Some (PinyinMatchResult.mk true direct None text
                              [index]))]
              | None => []
              end
            else [])
         l.
Proof.
  intros text. revert acc. induction l as [|i l IH]; intros acc Hl; simpl.
  - now rewrite app_nil_r.
  - rewrite IH by (intros j Hj; apply Hl; now right).
    rewrite app_assoc. f_equal.
    pose proof (Hl i (or_introl eq_refl)) as H0.
    unfold pushDirect, pushRange, visibleRange.
    replace (i >=? 0)%Z with true by (symmetry; apply Z.geb_le; lia).
    cbn [andb].
    destruct (i + len keyword <=? len text)%Z; [|now rewrite app_nil_r].
    destruct (TextNode.clientRects node i (i + len keyword)) as [|rect rects];
      [now rewrite app_nil_r|].
    destruct (inViewport win rect); [reflexivity | now rewrite app_nil_r].
Qed.

(** C4, as the code has it: when the lower-cased keyword, which is not
    empty, occurs in the lower-cased text of a node, the turn of the keyword
    on the node returns, and adds to the matches exactly the direct
    candidates, in the order of the offsets: one for every offset at which
    the lower-cased keyword occurs in the lower-cased text such that the
    keyword placed there ends within the text and the range has a first
    rectangle in the viewport, each of the length of the keyword; the
    romanized and the last-resort searches add nothing. *)
Theorem scanKeyword_direct_only (node : TextNode.t) (keyword : jsstring)
    (matches : list Match.t) :
  let text := TextNode.nodeValue node in
  keyword <> [] ->
  toLowerCase keyword <> [] ->
  includes (toLowerCase text) (toLowerCase keyword) = true ->
  scanKeyword toLowerCase pinyinPro win node text keyword matches
  = Done (matches ++ directCandidates toLowerCase win node keyword)
  /\ (forall m,
         In m (directCandidates toLowerCase win node keyword) ->
         Match.node m = node
         /\ Match.length m = len keyword
         /\ occursAt (toLowerCase text) (toLowerCase keyword) (Match.index m)
         /\ (Match.index m + len keyword <= len text)%Z
         /\ visibleRange win node (Match.index m)
                         (Match.index m + len keyword)
            = Some (Match.rect m, Match.allRects m)
         /\ option_map PinyinMatchResult.type (Match.pinyinMatch m)
            = Some direct)
  /\ (forall i,
         occursAt (toLowerCase text) (toLowerCase keyword) i ->
         (i + len keyword <= len text)%Z ->
         visibleRange win node i (i + len keyword) <> None ->
         exists m,
           In m (directCandidates toLowerCase win node keyword)
           /\ Match.index m = i).
Proof.
  intros text Hk Hl Hinc. split; [|split].
  - unfold scanKeyword.
    destruct keyword as [|x keyword]; [easy|]. cbn [isEmpty].
    fold text. rewrite Hinc.
    rewrite forEachIndex_nonempty by exact Hl.
    rewrite pushDirect_occurrences; [reflexivity|].
    intros i Hi. apply occurrences_occursAt in Hi. apply Hi.
  - intros m Hm. unfold directCandidates in Hm. fold text in Hm.
    apply in_flat_map in Hm as (i & Hi & Hm).
    apply occurrences_occursAt in Hi.
    destruct (Z.leb_spec (i + len keyword) (len text)) as [Hb|Hb];
      [|destruct Hm].
    destruct (visibleRange _ _ _ _) as [[rect rects]|] eqn:V; [|destruct Hm].
    destruct Hm as [<-|[]].
    cbn [Match.node Match.length Match.index Match.rect Match.allRects
         Match.pinyinMatch option_map PinyinMatchResult.type].
    split; [reflexivity | split; [reflexivity | split; [exact Hi|]]].
    split; [exact Hb | split; [exact V | reflexivity]].
  - intros i Hi Hb Hv.
    destruct (visibleRange win node i (i + len keyword)) as [[rect rects]|]
      eqn:V; [|easy].
    exists (Match.mk node i (len keyword) rect rects
              (Some (PinyinMatchResult.mk true direct None text [i]))).
    split; [|reflexivity].
    unfold directCandidates. fold text. apply in_flat_map. exists i.
    split; [now apply occurrences_occursAt|].
    replace (i + len keyword <=? len text)%Z with true
      by (symmetry; now apply Z.leb_le).
    rewrite V. now left.
Qed.

Lemma walk_stops (keywords : list jsstring) (nodes : list TextNode.t)
    (acc matches : list Match.t) :
  walk toLowerCase pinyinPro win keywords nodes acc = Done matches ->
  length acc <= 300 ->
  300 < length matches ->
  exists before node after earlier,
    nodes = before ++ node :: after
    /\ walk toLowerCase pinyinPro win keywords before acc = Done earlier
    /\ length earlier <= 300
    /\ scanKeywords toLowerCase pinyinPro win node (TextNode.nodeValue node)
                    keywords earlier = Done matches.
Proof.
  revert acc. induction nodes as [|node rest IH]; intros acc; cbn [walk].
  - intros [= <-]. lia.
  - destruct (scanNode _ _ _ _ _ _) as [[m' leave]|] eqn:E; cbn [bind];
      [|discriminate].
    intros H Hacc Hmany.
    destruct (scanNode_cases _ _ _ _ _ _ _ _ E) as [Hscan Hleave].
    destruct leave.
    + injection H as <-.
      destruct Hscan as [->|Hscan]; [lia|].
      exists [], node, rest, acc. now repeat split.
    + assert (Hm' : length m' <= 300)
        by (destruct (Hleave eq_refl) as [->|]; lia).
      destruct (IH _ H Hm' Hmany)
        as (before & node' & after & earlier & -> & Hw & He & Hs).
      exists (node :: before), node', after, earlier.
      repeat split; try assumption.
      cbn [walk]. now rewrite E.
Qed.

(** C8, as the code has it: a result of more than 300 candidates comes from
    a span at which the walk stopped; the spans before it gave at most 300
    candidates together, the candidates of that span were all added, and no
    span after it was scanned. *)
Theorem collector_stops_after_300 (keywords : list jsstring)
    (nodes : list TextNode.t) (matches : list Match.t) :
  findVisibleMatchesWithPinyin toLowerCase pinyinPro win keywords nodes
  = Done matches ->
  300 < length matches ->
  exists before node after earlier,
    nodes = before ++ node :: after
    /\ findVisibleMatchesWithPinyin toLowerCase pinyinPro win keywords before
       = Done earlier
    /\ length earlier <= 300
    /\ scanKeywords toLowerCase pinyinPro win node (TextNode.nodeValue node)
                    keywords earlier = Done matches.
Proof.
  intros H Hmany. apply (walk_stops _ _ _ _ H); simpl; lia.
Qed.

End CollectorOrder.

(** ** Closed examples of the collector *)


(** "ao" occurs at offset 4 of the romanized form "ni hao shi jie"; the text
    has four units, and no candidate is made for that offset. *)
Lemma collector_drops_out_of_range :
  option_map PinyinMatchResult.matchedIndices
    (match matchPinyin lowerCase toyPinyin (Str hanText) (lit "ao") with
     | Done o => o
     | NoReturn => None
     end) = Some [4%Z]
  /\ findVisibleMatchesWithPinyin lowerCase toyPinyin page [lit "ao"]
                                  [lineNode 0 hanText] = Done [].
Proof. split; vm_compute; reflexivity. Qed.

(** The entry point always takes the way with romanization. *)
Lemma findVisibleMatches_pinyin (toLowerCase : jsstring -> jsstring)
    (pinyinPro : jsstring -> PinyinOutput) (win : Window.t)
    (regexScan : list jsstring -> list TextNode.t -> run (list Match.t))
    (keywords : list jsstring) (nodes : list TextNode.t) :
  findVisibleMatches toLowerCase pinyinPro win regexScan keywords nodes
  = findVisibleMatchesWithPinyin toLowerCase pinyinPro win keywords nodes.
Proof. reflexivity. Qed.

(** "the" in "The cat the": two direct candidates, at offsets 0 and 8. *)
Lemma scanKeyword_direct_only_witness :
  emitted (scanKeyword lowerCase toyPinyin page
             (lineNode 0 (lit "The cat the")) (lit "The cat the") (lit "the")
             [])
  = Some [0%Z; 8%Z].
Proof.
  destruct (scanKeyword_direct_only lowerCase toyPinyin page
              (lineNode 0 (lit "The cat the")) (lit "the") [])
    as [Hrun _]; [discriminate | discriminate | vm_compute; reflexivity |].
  cbn [TextNode.nodeValue lineNode] in Hrun. rewrite Hrun.
  vm_compute. reflexivity.
Defined.

(** C4 as worded fails: "a" occurs at offsets 0 and 1 of "aa", the range at
    offset 1 is drawn below the viewport, and the collector returns a
    candidate for offset 0 only. *)
Lemma direct_occurrence_off_screen :
  ~ (forall i,
        In i (occurrences (lowerCase (lit "aa")) (lowerCase (lit "a"))) ->
        exists offsets,
          emitted (findVisibleMatchesWithPinyin lowerCase toyPinyin page
                     [lit "a"] [clippedNode 1 (lit "aa")]) = Some offsets
          /\ In i offsets).
Proof.
  intros H. destruct (H 1%Z) as (offsets & Hrun & Hin).
  - vm_compute. tauto.
  - vm_compute in Hrun. injection Hrun as <-.
    destruct Hin as [Hin|[]]. discriminate Hin.
Qed.

(** The test of the end of the keyword against the length of the text is
    not idle: in "İa", all of it on screen, "a" is found at offset 2 of the
    lower-cased copy, beyond the two units of the text, and no candidate is
    made for it. *)
Lemma direct_occurrence_beyond_text :
  includes (lowerCase dottedText) (lowerCase (lit "a")) = true
  /\ occurrences (lowerCase dottedText) (lowerCase (lit "a")) = [2%Z]
  /\ findVisibleMatchesWithPinyin lowerCase toyPinyin page [lit "a"]
                                  [lineNode 0 dottedText] = Done [].
Proof. repeat split; vm_compute; reflexivity. Qed.

Lemma denseDocument_run :
  option_map (@Datatypes.length Z)
    (emitted (findVisibleMatchesWithPinyin lowerCase toyPinyin page
                [lit "a"] denseDocument))
  = Some 301.
Proof. vm_compute. reflexivity. Qed.

Lemma denseDocument_matches :
  exists matches,
    findVisibleMatchesWithPinyin lowerCase toyPinyin page [lit "a"]
                                 denseDocument = Done matches
    /\ length matches = 301.
Proof.
  pose proof denseDocument_run as H.
  destruct (findVisibleMatchesWithPinyin _ _ _ _ _) as [matches|];
    [|discriminate H].
  exists matches. split; [reflexivity|].
  simpl in H. rewrite length_map in H. now injection H.
Qed.

(** C8 as worded fails: a text unit with 301 occurrences gives 301
    candidates. *)
Lemma collector_exceeds_300 :
  ~ (forall keywords nodes matches,
        findVisibleMatchesWithPinyin lowerCase toyPinyin page keywords nodes
        = Done matches ->
        length matches <= 300).
Proof.
  intros H. destruct denseDocument_matches as (matches & Hrun & Hlen).
  specialize (H _ _ _ Hrun). lia.
Qed.

Lemma collector_stops_after_300_witness :
  exists matches before node after earlier,
    findVisibleMatchesWithPinyin lowerCase toyPinyin page [lit "a"]
                                 denseDocument = Done matches
    /\ denseDocument = before ++ node :: after
    /\ findVisibleMatchesWithPinyin lowerCase toyPinyin page [lit "a"] before
       = Done earlier
    /\ length earlier <= 300
    /\ scanKeywords lowerCase toyPinyin page node (TextNode.nodeValue node)
                    [lit "a"] earlier = Done matches.
Proof.
  destruct denseDocument_matches as (matches & Hrun & Hlen).
  destruct (collector_stops_after_300 lowerCase toyPinyin page [lit "a"]
              denseDocument matches Hrun)
    as (before & node & after & earlier & H); [lia|].
  exists matches, before, node, after, earlier. split; [exact Hrun | exact H].
Defined.

(** The matcher does not return on a query with a space at its end when no
    earlier strategy succeeds. *)
Lemma matchPinyin_trailing_space :
  matchPinyin lowerCase toyPinyin (Str (lit "abc")) (lit "x ") = NoReturn.
Proof. vm_compute. reflexivity. Qed.

(* ================================================================== *)
(** * Further properties *)

(** ** Occurrences and [findMatchIndices] *)

(** X1: [findMatchIndices] does not return when the lower-cased query is
    empty, as it is for the empty query with [String.prototype.toLowerCase];
    on any other query it returns the offsets of all occurrences of the
    lower-cased query in the lower-cased text, each once, in increasing
    order. *)
Theorem findMatchIndices_all_occurrences
    (toLowerCase : jsstring -> jsstring) (text query : jsstring) :
  findMatchIndices toLowerCase text query
  = (if isEmpty (toLowerCase query) then NoReturn
     else Done (occurrences (toLowerCase text) (toLowerCase query)))
  /\ StronglySorted Z.lt (occurrences (toLowerCase text)
                                      (toLowerCase query))
  /\ forall i,
      In i (occurrences (toLowerCase text) (toLowerCase query))
      <-> occursAt (toLowerCase text) (toLowerCase query) i.
Proof.
  split; [|split].
  - apply findMatchIndices_run.
  - apply occs_increasing.
  - intros i. apply occurrences_occursAt.
Qed.

(** ** [matchPinyin] at its edges *)

Section MatcherEdges.

Variable toLowerCase : jsstring -> jsstring.
Variable pinyinPro : jsstring -> PinyinOutput.


Lemma matchParts_not_null (textStr textPinyin textInitials : jsstring)
    (parts : list jsstring) :
  matchParts toLowerCase textStr textPinyin textInitials parts <> Done None.
Proof.
  induction parts as [|part rest IH]; cbn [matchParts]; [discriminate|].
  destruct (includes _ part).
  - destruct (findMatchIndices _ _ _); cbn [bind]; discriminate.
  - destruct (includes _ part); [|exact IH].
    destruct (findMatchIndices _ _ _); cbn [bind]; discriminate.
Qed.

(** X2: [matchPinyin] returns [null] exactly when the text is the empty
    string or the query is empty; an array, even an empty one, is not an
    empty text. *)
Theorem matchPinyin_null (searchText : SearchText) (query : jsstring) :
  matchPinyin toLowerCase pinyinPro searchText query = Done None
  <-> (searchText = Str [] \/ query = []).
Proof.
  unfold matchPinyin. split.
  - destruct searchText as [[|c s]|a], query as [|y q]; cbn [falsyText isEmpty orb];
      try (intros _; tauto).
    + intros H. exfalso. revert H.
      repeat (match goal with
              | |- context [if ?b then _ else _] => destruct b
              | |- context [findMatchIndices ?u ?t ?p] =>
                  destruct (findMatchIndices u t p); cbn [bind]
              end; try discriminate).
      apply matchParts_not_null.
    + intros H. exfalso. revert H.
      repeat (match goal with
              | |- context [if ?b then _ else _] => destruct b
              | |- context [findMatchIndices ?u ?t ?p] =>
                  destruct (findMatchIndices u t p); cbn [bind]
              end; try discriminate).
      apply matchParts_not_null.
  - intros [->| ->]; [reflexivity|].
    now destruct (falsyText searchText).
Qed.

(** X3: when the query, whose lower case is not empty, occurs in the text
    as it is written, the outcome is [direct], and its indices are all the
    offsets at which the lower-cased query occurs in the lower-cased copy
    of the text, in increasing order; there is at least one exactly when
    that copy holds the lower-cased query. *)
Theorem matchPinyin_direct (text query : jsstring) :
  toLowerCase query <> [] ->
  query <> [] ->
  includes text query = true ->
  let indices := occurrences (toLowerCase text) (toLowerCase query) in
  matchPinyin toLowerCase pinyinPro (Str text) query
  = Done (Some (PinyinMatchResult.mk true direct None text indices))
  /\ StronglySorted Z.lt indices
  /\ (forall i,
         In i indices
         <-> occursAt (toLowerCase text) (toLowerCase query) i)
  /\ (indices <> []
      <-> includes (toLowerCase text) (toLowerCase query) = true).
Proof.
  intros Hl Hq Hinc indices.
  split; [|split; [apply occs_increasing|split]].
  - unfold matchPinyin.
    destruct text as [|c text].
    { destruct query; [easy|]. discriminate Hinc. }
    destruct query as [|y query]; [easy|].
    cbn [falsyText isEmpty orb]. rewrite Hinc.
    rewrite (findMatchIndices_nonempty toLowerCase _ _ Hl). reflexivity.
  - intros i. apply occurrences_occursAt.
  - symmetry. now apply includes_occurrences.
Qed.

(** X4: on a non-empty text, a query whose lower case starts with white
    space and which succeeds by none of the four whole-query strategies
    makes [matchPinyin] not return: its first sub-token is empty, every
    string includes it, and the search for its offsets is never left. *)
Theorem matchPinyin_leading_space (text query : jsstring) (w : N)
    (rest : jsstring) :
  text <> [] -> query <> [] ->
  toLowerCase [] = [] ->
  toLowerCase query = w :: rest ->
  isWhite w = true ->
  let syllables := getPinyin pinyinPro text in
  includes text query = false ->
  includes (toLowerCase (join (lit " ") syllables)) (toLowerCase query)
  = false ->
  includes (toLowerCase (join [] syllables)) (toLowerCase query) = false ->
  includes (getPinyinInitials toLowerCase pinyinPro text)
           (toLowerCase query) = false ->
  matchPinyin toLowerCase pinyinPro (Str text) query = NoReturn.
Proof.
  intros Ht Hq Hnil Hlow Hw syllables H1 H2 H3 H4.
  unfold matchPinyin. destruct text as [|x text]; [easy|].
  destruct query as [|y query]; [easy|].
  cbn [falsyText isEmpty orb]. fold syllables.
  rewrite H1, H2, H3, H4, Hlow.
  unfold splitWhite. cbn [splitFrom]. rewrite Hw.
  cbn [matchParts]. rewrite includes_nil.
  now rewrite (findMatchIndices_empty toLowerCase _ _ Hnil).
Qed.

End MatcherEdges.

Lemma matchPinyin_direct_witness :
  matchPinyin lowerCase toyPinyin (Str (lit "The cat the")) (lit "the")
  = Done (Some (PinyinMatchResult.mk true direct None (lit "The cat the")
                  [0%Z; 8%Z])).
Proof.
  destruct (matchPinyin_direct lowerCase toyPinyin (lit "The cat the")
              (lit "the")) as [H _];
    [discriminate | discriminate | vm_compute; reflexivity | exact H].
Defined.

Lemma matchPinyin_leading_space_witness :
  matchPinyin lowerCase toyPinyin (Str (lit "abc")) (lit " x") = NoReturn.
Proof.
  apply (matchPinyin_leading_space lowerCase toyPinyin (lit "abc") (lit " x")
           32%N (lit "x")); try reflexivity; discriminate.
Defined.

(** ** Pieces of a split *)

Lemma splitFrom_head (s : jsstring) :
  exists piece rest post,
    splitFrom false s = piece :: rest /\ s = piece ++ post.
Proof.
  induction s as [|c s IH]; cbn [splitFrom].
  - now exists [], [], [].
  - destruct (isWhite c).
    + now exists [], (splitFrom true s), (c :: s).
    + destruct IH as (piece & rest & post & -> & ->).
      now exists (c :: piece), rest, post.
Qed.

Lemma splitFrom_substring (s : jsstring) (b : bool) (p : jsstring) :
  In p (splitFrom b s) -> exists pre post, s = pre ++ p ++ post.
Proof.
  revert b p. induction s as [|c s IH]; intros b p; cbn [splitFrom].
  - intros [<-|[]]. now exists [], [].
  - destruct (isWhite c).
    + assert (G : In p (splitFrom true s) ->
                  exists pre post, c :: s = pre ++ p ++ post).
      { intros H. destruct (IH _ _ H) as (pre & post & ->).
        now exists (c :: pre), post. }
      destruct b; [exact G|].
      intros [<-|H]; [now exists [], (c :: s) | now apply G].
    + destruct (splitFrom_head s) as (piece & rest & post & E & Hs).
      pose proof (IH false) as IHf. rewrite E in IHf |- *.
      intros [<-|H].
      * exists [], post. simpl. now rewrite Hs.
      * destruct (IHf p (or_intror H)) as (pre & post' & ->).
        now exists (c :: pre), post'.
Qed.

Lemma includes_inside (s pre p post q : jsstring) :
  s = pre ++ p ++ post -> startsWith p q = true -> includes s q = true.
Proof.
  intros -> H. apply includes_found. exists (length pre). split.
  - rewrite length_app. lia.
  - rewrite skipn_app, skipn_all, Nat.sub_diag. simpl.
    apply startsWith_firstn in H as [Hl Hq].
    apply startsWith_firstn. rewrite length_app. split; [lia|].
    rewrite firstn_app.
    replace (length q - length p) with 0 by lia.
    now rewrite Hq, firstn_0, app_nil_r.
Qed.

(** ** The fallback predicates *)

Section Fallbacks.

Variable toLowerCase : jsstring -> jsstring.
Variable pinyinPro : jsstring -> PinyinOutput.


(** X5: [isFullPinyinMatch] holds exactly when the query has at least two
    units and its lower case occurs in the space-joined romanized form, in
    the concatenated one or in the initials, all lower-cased; the test of
    the syllable prefixes and the scan of the concatenated form that come
    after never find anything more. *)
Theorem isFullPinyinMatch_three_tests (text query : jsstring) :
  let syllables := getPinyin pinyinPro text in
  isFullPinyinMatch toLowerCase pinyinPro text query
  = (2 <=? length query)
    && (includes (toLowerCase (join (lit " ") syllables)) (toLowerCase query)
        || includes (toLowerCase (join [] syllables)) (toLowerCase query)
        || includes (toLowerCase (getPinyinInitials toLowerCase pinyinPro
                                                     text))
                    (toLowerCase query)).
Proof.
  intros syllables. unfold isFullPinyinMatch. fold syllables.
  destruct (Nat.ltb_spec (length query) 2) as [Hlt|Hge].
  - now replace (2 <=? length query) with false
      by (symmetry; apply Nat.leb_gt; exact Hlt).
  - replace (2 <=? length query) with true
      by (symmetry; apply Nat.leb_le; exact Hge).
    cbn [andb].
    set (ws := toLowerCase (join (lit " ") syllables)).
    set (ns := toLowerCase (join [] syllables)).
    set (ini := toLowerCase (getPinyinInitials toLowerCase pinyinPro text)).
    set (ql := toLowerCase query).
    destruct (includes ws ql) eqn:E1; [reflexivity|].
    destruct (includes ns ql) eqn:E2; [reflexivity|].
    destruct (includes ini ql) eqn:E3; [reflexivity|].
    cbn [orb].
    destruct (existsb _ (splitWhite ws)) eqn:E4.
    { apply existsb_exists in E4 as (word & Hw & Hp).
      destruct (splitFrom_substring _ _ _ Hw) as (pre & post & Hs).
      rewrite (includes_inside _ _ _ _ _ Hs Hp) in E1. discriminate E1. }
    destruct (existsb _ (seq 0 _)) eqn:E5; [|reflexivity].
    apply existsb_exists in E5 as (i & _ & Hi).
    apply eqs_eq in Hi. unfold substring in Hi.
    replace (i + length ql - i) with (length ql) in Hi by lia.
    assert (Hin : includes ns ql = true).
    { destruct (Nat.le_gt_cases i (length ns)) as [Hi'|Hi'].
      - apply includes_found. exists i. split; [exact Hi'|].
        apply startsWith_firstn. split; [|exact Hi].
        rewrite <- Hi at 1. rewrite length_firstn. lia.
      - rewrite skipn_all2 in Hi by lia. rewrite firstn_nil in Hi.
        rewrite <- Hi. apply includes_nil. }
    rewrite Hin in E2. discriminate E2.
Qed.

(** X6: on a non-empty text, whenever [isFullPinyinMatch] holds,
    [matchPinyin] returns a matched outcome of type [direct], [pinyin] or
    [initials]: in [enhancedMatch], where it is tried after [matchPinyin],
    the full-pinyin fallback decides nothing. This is for a lower-casing
    that gives no empty string for a non-empty one and leaves the initials
    of the text, which are made of lower-cased units, as they are. *)
Theorem isFullPinyinMatch_matched (text query : jsstring) :
  keepsNonEmpty toLowerCase ->
  toLowerCase (getPinyinInitials toLowerCase pinyinPro text)
  = getPinyinInitials toLowerCase pinyinPro text ->
  text <> [] ->
  isFullPinyinMatch toLowerCase pinyinPro text query = true ->
  exists o,
    matchPinyin toLowerCase pinyinPro (Str text) query = Done (Some o)
    /\ PinyinMatchResult.matched o = true
    /\ (PinyinMatchResult.type o = direct
        \/ PinyinMatchResult.type o = pinyin
        \/ PinyinMatchResult.type o = initials).
Proof.
  intros Hkeep Hinit Ht H.
  rewrite isFullPinyinMatch_three_tests in H.
  apply andb_true_iff in H as [Hlen H]. apply Nat.leb_le in Hlen.
  rewrite Hinit in H.
  assert (Hq : toLowerCase query <> [])
    by (apply Hkeep; destruct query; [simpl in Hlen; lia | discriminate]).
  unfold matchPinyin.
  destruct text as [|x text]; [easy|].
  destruct query as [|y query]; [simpl in Hlen; lia|].
  cbn [falsyText isEmpty orb].
  repeat match goal with
         | |- context [if includes ?a ?b then _ else _] =>
             destruct (includes a b) eqn:?
         end;
    try (rewrite (findMatchIndices_nonempty toLowerCase _ _ Hq); cbn [bind];
         eexists; split; [reflexivity|]; split; [reflexivity|]; tauto).
  discriminate H.
Qed.

End Fallbacks.

Lemma isFullPinyinMatch_matched_witness :
  exists o,
    matchPinyin lowerCase toyPinyin (Str hanText) (lit "hao shi")
    = Done (Some o)
    /\ PinyinMatchResult.matched o = true.
Proof.
  destruct (isFullPinyinMatch_matched lowerCase toyPinyin hanText
              (lit "hao shi") lowerCase_keepsNonEmpty)
    as (o & Hrun & Hm & _);
    [vm_compute; reflexivity | discriminate | vm_compute; reflexivity |].
  now exists o.
Defined.

(** ** Deduplication, further *)

Lemma keepFirst_covers (l u : list Match.t) :
  let kept := fold_left keepFirst l u in
  incl kept (u ++ l)
  /\ (forall m, In m l -> In m kept \/ existsb (near m) kept = true).
Proof.
  revert u. induction l as [|c l IH]; intros u; cbn [fold_left].
  - rewrite app_nil_r. split; [apply incl_refl | easy].
  - destruct (IH (keepFirst u c)) as [Hincl Hcov].
    destruct (keepFirst_extends l (keepFirst u c)) as (rest & Hrest & _).
    split.
    + intros m Hm. apply Hincl in Hm. apply in_app_iff in Hm as [Hm|Hm].
      * unfold keepFirst in Hm. apply in_app_iff.
        destruct (negb _); [|now left].
        apply in_app_iff in Hm as [Hm|[<-|[]]]; [now left | right; now left].
      * apply in_app_iff. right. now right.
    + intros m [<-|Hm]; [|now apply Hcov].
      rewrite Hrest. unfold keepFirst.
      destruct (existsb (near c) u) eqn:E; cbn [negb].
      * right. rewrite existsb_app, E. reflexivity.
      * left. apply in_app_iff. left. apply in_app_iff. right. now left.
Qed.

(** X7: [removeDuplicateMatches] invents nothing and loses no place: every
    candidate it returns is one it was given, every candidate it was given
    is returned or lies within 5 pixels, in left and in top, of one that is
    returned, and the result is empty only for an empty input. *)
Theorem removeDuplicateMatches_covers (matches : list Match.t) :
  let kept := removeDuplicateMatches matches in
  incl kept matches
  /\ (forall m, In m matches -> In m kept \/ existsb (near m) kept = true)
  /\ length kept <= length matches
  /\ (kept = [] <-> matches = []).
Proof.
  intros kept.
  assert (Hfold : kept = fold_left keepFirst matches []) by reflexivity.
  destruct (keepFirst_covers matches []) as [Hincl Hcov].
  rewrite <- Hfold in Hincl, Hcov. simpl in Hincl.
  assert (Hlen : forall l u,
             length (fold_left keepFirst l u) <= length u + length l).
  { induction l as [|c l IH]; intros u; cbn [fold_left]; [simpl; lia|].
    specialize (IH (keepFirst u c)).
    assert (length (keepFirst u c) <= S (length u)).
    { unfold keepFirst. destruct (negb _); [rewrite length_app|]; simpl; lia. }
    simpl. lia. }
  split; [exact Hincl | split; [exact Hcov | split]].
  - rewrite Hfold. apply (Hlen matches []).
  - split.
    + intros Hk. destruct matches as [|m matches]; [reflexivity|].
      destruct (Hcov m (or_introl eq_refl)) as [H|H];
        rewrite Hk in H; [destruct H | discriminate H].
    + intros ->. reflexivity.
Qed.

(** ** The last-resort index search *)

Lemma push_if (p : Z -> bool) (l acc : list Z) :
  fold_left (fun indices index =>
               if p index then indices ++ [index] else indices) l acc
  = acc ++ filter p l.
Proof.
  revert acc. induction l as [|x l IH]; intros acc; cbn [fold_left filter].
  - now rewrite app_nil_r.
  - rewrite IH. destruct (p x); [now rewrite <- app_assoc | reflexivity].
Qed.

Lemma filter_increasing (p : Z -> bool) (l : list Z) :
  StronglySorted Z.lt l -> StronglySorted Z.lt (filter p l).
Proof.
  induction 1 as [|x l Hs IH Hx]; cbn [filter]; [constructor|].
  destruct (p x); [|exact IH].
  constructor; [exact IH|].
  rewrite Forall_forall in *. intros y Hy.
  apply filter_In in Hy as [Hy _]. now apply Hx.
Qed.

Lemma setOf_NoDup (l : list Z) : NoDup (setOf l).
Proof.
  unfold setOf.
  assert (G : forall l seen, NoDup seen ->
                NoDup (fold_left
                         (fun seen x =>
                            if existsb (Z.eqb x) seen then seen
                            else seen ++ [x]) l seen)).
  { clear l. induction l as [|x l IH]; intros seen Hs; cbn [fold_left];
      [exact Hs|].
    apply IH. destruct (existsb (Z.eqb x) seen) eqn:E; [exact Hs|].
    apply NoDup_app; [exact Hs | repeat constructor; easy |].
    intros y Hy [->|[]].
    assert (existsb (Z.eqb y) seen = true)
      by (apply existsb_exists; exists y; split; [exact Hy | apply Z.eqb_refl]).
    congruence. }
  apply G. constructor.
Qed.

Lemma insertAsc_In_iff (x y : Z) (l : list Z) :
  In x (insertAsc y l) <-> x = y \/ In x l.
Proof.
  split; [apply insertAsc_In|].
  induction l as [|z l IH]; cbn [insertAsc].
  - intros [->|[]]. now left.
  - destruct (y <=? z)%Z.
    + intros [->|H]; [now left | now right].
    + intros [->|[->|H]]; [right; apply IH; now left | now left |
                           right; apply IH; now right].
Qed.

Lemma insertAsc_increasing (x : Z) (l : list Z) :
  StronglySorted Z.lt l -> ~ In x l -> StronglySorted Z.lt (insertAsc x l).
Proof.
  induction 1 as [|z l Hs IH Hz]; intros Hx; cbn [insertAsc].
  - repeat constructor.
  - rewrite Forall_forall in Hz.
    destruct (Z.leb_spec x z) as [Hle|Hgt].
    + assert (x < z)%Z by (assert (x <> z) by (intros ->; apply Hx; now left); lia).
      constructor; [now constructor; [|apply Forall_forall] |].
      apply Forall_forall. intros y [<-|Hy]; [easy|].
      specialize (Hz y Hy). lia.
    + constructor.
      * apply IH. intros H. apply Hx. now right.
      * apply Forall_forall. intros y Hy.
        apply insertAsc_In_iff in Hy as [->|Hy]; [lia | now apply Hz].
Qed.

Lemma sortAsc_increasing (l : list Z) :
  NoDup l -> StronglySorted Z.lt (sortAsc l).
Proof.
  induction 1 as [|x l Hx Hn IH]; cbn [sortAsc fold_right]; [constructor|].
  apply insertAsc_increasing; [exact IH|].
  intros H. apply Hx. now apply sortAsc_In.
Qed.

(** X8: [findEnhancedMatchIndices] returns exactly when the lower-cased
    query is not empty (for [String.prototype.toLowerCase]: for every query
    but the empty one); on a query that is empty once lower-cased its first
    loop is never left. What it returns is a strictly increasing list of
    offsets inside the text. *)
Theorem findEnhancedMatchIndices_sorted
    (toLowerCase : jsstring -> jsstring)
    (pinyinPro : jsstring -> PinyinOutput) (text query : jsstring) :
  match findEnhancedMatchIndices toLowerCase pinyinPro text query with
  | Done indices =>
      toLowerCase query <> []
      /\ StronglySorted Z.lt indices
      /\ forall i, In i indices -> (0 <= i < len text)%Z
  | NoReturn => toLowerCase query = []
  end.
Proof.
  destruct (findEnhancedMatchIndices _ _ _ _) as [indices|] eqn:E.
  - pose proof (findEnhancedMatchIndices_range _ _ _ _ _ E) as Hrange.
    unfold findEnhancedMatchIndices in E.
    destruct (toLowerCase query) as [|y ql] eqn:Eq.
    { exfalso. rewrite includes_nil in E.
      now rewrite forEachIndex_empty in E. }
    split; [discriminate | split; [|exact Hrange]].
    cbv zeta in E.
    set (inText := fun index : Z => ((index >=? 0) && (index <? len text))%Z)
      in *.
    assert (Hfound :
              exists found,
                (if includes (toLowerCase text) (y :: ql)
                 then forEachIndex (toLowerCase text) (y :: ql)
                        (fun index indices =>
                           if ((index >=? 0) && (index <? len text))%Z
                           then indices ++ [index]
                           else indices) []
                 else Done []) = Done found
                /\ StronglySorted Z.lt found).
    { destruct (includes _ _).
      - rewrite forEachIndex_nonempty by discriminate.
        eexists. split; [reflexivity|].
        rewrite (push_if inText). apply filter_increasing, occs_increasing.
      - exists []. split; [reflexivity | constructor]. }
    destruct Hfound as (found & Hrun & Hsorted).
    rewrite Hrun in E. cbn [bind] in E.
    destruct ((length query =? 1) && (0 <? length found)).
    + injection E as <-. now apply filter_increasing.
    + injection E as <-.
      apply sortAsc_increasing, NoDup_filter, setOf_NoDup.
  - destruct (toLowerCase query) as [|y ql] eqn:Eq; [reflexivity|]. exfalso.
    unfold findEnhancedMatchIndices in E. rewrite Eq in E.
    destruct (includes _ _).
    + rewrite forEachIndex_nonempty in E by discriminate.
      cbn [bind] in E. now destruct (_ && _).
    + cbn [bind] in E. now destruct (_ && _).
Qed.

(** ** The collector returns, and what it returns is on screen *)

Section CollectorReturns.

Variable toLowerCase : jsstring -> jsstring.
Variable pinyinPro : jsstring -> PinyinOutput.
Variable win : Window.t.


Hypothesis lower_keeps : keepsNonEmpty toLowerCase.

Lemma enhancedLoop_returns (text textLower : jsstring)
    (queries : list jsstring) :
  text <> [] ->
  Forall (fun q => noWhite (toLowerCase q) = true) queries ->
  exists hit,
    enhancedLoop toLowerCase pinyinPro text textLower queries = Done hit.
Proof.
  intros Ht. induction 1 as [|query rest Hq _ IH]; cbn [enhancedLoop].
  - now eexists.
  - destruct query as [|y query]; cbn [isEmpty]; [exact IH|].
    destruct (includes _ _); [now eexists|].
    destruct (matchPinyin_plain_returns toLowerCase pinyinPro text
                (y :: query) Ht ltac:(discriminate) lower_keeps Hq)
      as [o ->].
    cbn [bind].
    repeat match goal with
           | |- context [if ?b then _ else _] => destruct b
           end; try now eexists.
    exact IH.
Qed.

Lemma findEnhancedMatchIndices_returns (text query : jsstring) :
  query <> [] ->
  exists indices,
    findEnhancedMatchIndices toLowerCase pinyinPro text query = Done indices.
Proof.
  intros Hq. unfold findEnhancedMatchIndices.
  pose proof (lower_keeps _ Hq) as Hl.
  destruct (includes _ _).
  - rewrite forEachIndex_nonempty by exact Hl. cbn [bind].
    destruct (_ && _); now eexists.
  - cbn [bind]. destruct (_ && _); now eexists.
Qed.

Lemma scanKeywords_returns (node : TextNode.t) (text : jsstring)
    (keywords : list jsstring) (matches : list Match.t) :
  text <> [] ->
  Forall (fun k => noWhite (toLowerCase k) = true) keywords ->
  exists result,
    scanKeywords toLowerCase pinyinPro win node text keywords matches
    = Done result.
Proof.
  intros Ht H. revert matches.
  induction H as [|keyword rest Hk _ IH]; intros matches; cbn [scanKeywords].
  - now eexists.
  - assert (Hone : exists r,
               scanKeyword toLowerCase pinyinPro win node text keyword matches
               = Done r).
    { unfold scanKeyword.
      destruct keyword as [|y keyword]; cbn [isEmpty]; [now eexists|].
      destruct (includes _ _).
      - rewrite forEachIndex_nonempty
          by (apply lower_keeps; discriminate).
        now eexists.
      - destruct (matchPinyin_plain_returns toLowerCase pinyinPro text
                    (y :: keyword) Ht ltac:(discriminate) lower_keeps Hk)
          as [o ->].
        destruct (findEnhancedMatchIndices_returns text (y :: keyword)
                    ltac:(discriminate)) as [indices ->].
        cbn [bind]. destruct (_ && _); now eexists. }
    destruct Hone as [r ->]. cbn [bind]. apply IH.
Qed.

Lemma scanNode_returns (keywords : list jsstring) (node : TextNode.t)
    (matches : list Match.t) :
  Forall (fun k => noWhite (toLowerCase k) = true) keywords ->
  exists step,
    scanNode toLowerCase pinyinPro win keywords node matches = Done step.
Proof.
  intros Hk. unfold scanNode.
  destruct (TextNode.parentElement node) as [parent|]; [|now eexists].
  destruct (Element.inTags parent); [now eexists|].
  destruct (_ && _); [now eexists|].
  destruct (TextNode.nodeValue node) as [|x text] eqn:Et; cbn [isEmpty];
    [now eexists|].
  unfold enhancedMatch. cbn [isEmpty orb].
  destruct keywords as [|k keywords]; cbn [length Nat.eqb bind];
    [now eexists|].
  destruct (enhancedLoop_returns (x :: text) (toLowerCase (x :: text))
              (k :: keywords) ltac:(discriminate) Hk) as [hit ->].
  cbn [bind]. destruct hit; [|now eexists].
  destruct (_ || _); [now eexists|].
  destruct (scanKeywords_returns node (x :: text) (k :: keywords) matches
              ltac:(discriminate) Hk) as [r ->].
  cbn [bind]. now eexists.
Qed.

Lemma walk_returns (keywords : list jsstring) (nodes : list TextNode.t)
    (matches : list Match.t) :
  Forall (fun k => noWhite (toLowerCase k) = true) keywords ->
  exists result,
    walk toLowerCase pinyinPro win keywords nodes matches = Done result.
Proof.
  intros Hk. revert matches.
  induction nodes as [|node rest IH]; intros matches; cbn [walk];
    [now eexists|].
  destruct (scanNode_returns keywords node matches Hk) as [[m' leave] ->].
  cbn [bind]. destruct leave; [now eexists | apply IH].
Qed.

(** X9: when lower-casing gives no empty string for a non-empty one and no
    keyword holds white space once lower-cased, the collector returns on
    every document: none of its loops over [indexOf] is run on an empty
    needle. *)
Theorem collector_returns (keywords : list jsstring)
    (nodes : list TextNode.t) :
  Forall (fun k => noWhite (toLowerCase k) = true) keywords ->
  exists matches,
    findVisibleMatchesWithPinyin toLowerCase pinyinPro win keywords nodes
    = Done matches.
Proof. intros Hk. now apply walk_returns. Qed.

End CollectorReturns.

Section CollectorScreen.

Variable toLowerCase : jsstring -> jsstring.
Variable pinyinPro : jsstring -> PinyinOutput.
Variable win : Window.t.

(** What every match pushed on a node is like: it points to the node, its
    rectangles are those of the range from its index over its length, and the
    first of them, kept as [rect], lies in the viewport. *)
Let drawn (node : TextNode.t) (m : Match.t) : Prop :=
  Match.node m = node
  /\ exists rest,
      TextNode.clientRects node (Match.index m)
                           (Match.index m + Match.length m)
      = Match.rect m :: rest
      /\ Match.allRects m = Match.rect m :: rest
      /\ inViewport win (Match.rect m) = true.

Lemma pushRange_drawn (P : Match.t -> Prop) (node : TextNode.t)
    (start stop : Z) (make : Rect.t -> list Rect.t -> Match.t)
    (matches : list Match.t) :
  (forall rect rest,
      TextNode.clientRects node start stop = rect :: rest ->
      inViewport win rect = true ->
      P (make rect (rect :: rest))) ->
  Forall P matches -> Forall P (pushRange win node start stop make matches).
Proof.
  intros Hmake Hm. unfold pushRange.
  destruct (TextNode.clientRects node start stop) as [|rect rest] eqn:E;
    [easy|].
  destruct (inViewport win rect) eqn:V; [|easy].
  apply Forall_app. split; [easy|].
  constructor; [now apply Hmake | constructor].
Qed.

Lemma scanKeyword_drawn (P : Match.t -> Prop) (node : TextNode.t)
    (text keyword : jsstring) (matches result : list Match.t) :
  (forall m,
      drawn node m -> (1 <= Match.length m <= len keyword)%Z -> P m) ->
  scanKeyword toLowerCase pinyinPro win node text keyword matches
  = Done result ->
  Forall P matches -> Forall P result.
Proof.
  intros HP. unfold scanKeyword. intros H Hm.
  assert (Hlast : forall indices,
             findEnhancedMatchIndices toLowerCase pinyinPro text keyword
             = Done indices ->
             keyword <> [] ->
             Forall P (fold_left (pushEnhanced win node text keyword)
                                 indices matches)).
  { intros indices Hrun Hk. apply fold_left_invariant; [|exact Hm].
    intros a i Hi Ha. unfold pushEnhanced.
    pose proof (findEnhancedMatchIndices_range _ _ _ _ _ Hrun i Hi) as Hr.
    assert (1 <= len keyword)%Z
      by (destruct keyword; [easy | unfold len; simpl; lia]).
    apply pushRange_drawn; [|exact Ha].
    intros rect rest Hrect Hv. apply HP.
    - split; [reflexivity|].
      exists rest. cbn [Match.index Match.length Match.rect Match.allRects].
      replace (i + Z.min (len keyword) (len text - i))%Z
        with (Z.min (i + Z.min (len keyword) (len text - i)) (len text))
        by lia.
      now repeat split.
    - cbn [Match.length]. lia. }
  destruct keyword as [|y keyword]; cbn [isEmpty] in H;
    [now injection H as <-|].
  assert (Hlen : (1 <= len (y :: keyword))%Z) by (unfold len; simpl; lia).
  destruct (includes _ _).
  - apply (forEachIndex_invariant _ (Forall P) _ _ _ _ _) in H;
      [exact H | | exact Hm].
    intros i a Ha. unfold pushDirect. destruct (_ && _)%Z; [|exact Ha].
    apply pushRange_drawn; [|exact Ha].
    intros rect rest Hr Hv. apply HP.
    + split; [reflexivity|]. exists rest. now repeat split.
    + cbn [Match.length]. lia.
  - destruct (matchPinyin _ _ _ _) as [[r|]|]; cbn [bind] in H;
      [| | discriminate H].
    + destruct (PinyinMatchResult.matched r && _).
      * injection H as <-. apply fold_left_invariant; [|exact Hm].
        intros a i _ Ha. unfold pushPinyin.
        destruct ((i >=? 0) && (i <? len text))%Z eqn:G; [|exact Ha].
        apply andb_true_iff in G as [G1 G2].
        apply pushRange_drawn; [|exact Ha].
        intros rect rest Hr Hv. apply HP.
        -- split; [reflexivity|].
           exists rest.
           cbn [Match.index Match.length Match.rect Match.allRects].
           replace (i + (Z.min (i + len (y :: keyword)) (len text) - i))%Z
             with (Z.min (i + len (y :: keyword)) (len text)) by lia.
           now repeat split.
        -- cbn [Match.length]. lia.
      * destruct (findEnhancedMatchIndices _ _ _ _) eqn:E; cbn [bind] in H;
          [injection H as <-; now apply Hlast | discriminate H].
    + destruct (findEnhancedMatchIndices _ _ _ _) eqn:E; cbn [bind] in H;
        [injection H as <-; now apply Hlast | discriminate H].
Qed.

Lemma scanKeywords_drawn (P : Match.t -> Prop) (node : TextNode.t)
    (text : jsstring) (keywords : list jsstring)
    (matches result : list Match.t) :
  (forall m keyword,
      In keyword keywords -> drawn node m ->
      (1 <= Match.length m <= len keyword)%Z -> P m) ->
  scanKeywords toLowerCase pinyinPro win node text keywords matches
  = Done result ->
  Forall P matches -> Forall P result.
Proof.
  revert matches.
  induction keywords as [|keyword rest IH]; intros matches HP;
    cbn [scanKeywords].
  - now intros [= <-].
  - destruct (scanKeyword _ _ _ _ _ _ _) as [m'|] eqn:E; cbn [bind];
      [|discriminate].
    intros H Hm.
    apply (IH m' (fun m k Hk => HP m k (or_intror Hk)) H).
    apply (scanKeyword_drawn P _ _ _ _ _
             (fun m => HP m keyword (or_introl eq_refl)) E Hm).
Qed.

Lemma scanNode_eligible (keywords : list jsstring) (node : TextNode.t)
    (matches result : list Match.t) (leave : bool) :
  scanNode toLowerCase pinyinPro win keywords node matches
  = Done (result, leave) ->
  result = matches
  \/ (eligible win node
      /\ scanKeywords toLowerCase pinyinPro win node (TextNode.nodeValue node)
                      keywords matches = Done result).
Proof.
  unfold scanNode, eligible. intros H.
  destruct (TextNode.parentElement node) as [parent|];
    [|injection H as <- _; now left].
  destruct (Element.inTags parent) eqn:Etags; [injection H as <- _; now left|].
  destruct (Element.isInsertBtn parent) eqn:Ebtn;
    destruct (Element.hasContainer parent) eqn:Econ; cbn [negb andb] in H;
    try (injection H as <- _; now left);
    (destruct (TextNode.nodeValue node) as [|x text] eqn:Et; cbn [isEmpty] in H;
     [injection H as <- _; now left|]);
    (destruct (enhancedMatch _ _ _ _) as [[|]|]; cbn [bind] in H;
     [| injection H as <- _; now left | discriminate H]);
    (destruct (Rect.bottom _ <? 0)%float eqn:Eb; cbn [orb] in H;
     [injection H as <- _; now left|]);
    (destruct (Window.innerHeight win <? _)%float eqn:Ev;
     [injection H as <- _; now left|]);
    (destruct (scanKeywords _ _ _ _ _ _ _) as [m'|] eqn:Es; cbn [bind] in H;
     [injection H as <- _ | discriminate H]);
    right; (split; [|reflexivity]); exists parent;
    repeat split; try assumption; try discriminate; tauto.
Qed.

(** X10: every candidate that the collector returns belongs to a text node
    of the document that is not in a tag area, lies in a content container
    or an insert button, has a non-empty text and a parent that reaches into
    the viewport; its rectangles are those of its own range, and the first
    of them lies in the viewport. *)
Theorem collector_candidates_on_screen (keywords : list jsstring)
    (nodes : list TextNode.t) (matches : list Match.t) (m : Match.t) :
  findVisibleMatchesWithPinyin toLowerCase pinyinPro win keywords nodes
  = Done matches ->
  In m matches ->
  In (Match.node m) nodes
  /\ eligible win (Match.node m)
  /\ exists rest,
      TextNode.clientRects (Match.node m) (Match.index m)
                           (Match.index m + Match.length m)
      = Match.rect m :: rest
      /\ Match.allRects m = Match.rect m :: rest
      /\ inViewport win (Match.rect m) = true.
Proof.
  intros H Hin.
  set (P := fun m : Match.t =>
              In (Match.node m) nodes
              /\ eligible win (Match.node m)
              /\ exists rest,
                  TextNode.clientRects (Match.node m) (Match.index m)
                                       (Match.index m + Match.length m)
                  = Match.rect m :: rest
                  /\ Match.allRects m = Match.rect m :: rest
                  /\ inViewport win (Match.rect m) = true).
  assert (G : forall ns acc result,
             incl ns nodes ->
             walk toLowerCase pinyinPro win keywords ns acc = Done result ->
             Forall P acc -> Forall P result).
  { induction ns as [|node rest IH]; intros acc result Hns; cbn [walk].
    - now intros [= <-].
    - destruct (scanNode _ _ _ _ _ _) as [[m' leave]|] eqn:E; cbn [bind];
        [|discriminate].
      intros Hw Hacc.
      assert (Hm' : Forall P m').
      { destruct (scanNode_eligible _ _ _ _ _ E) as [->|[Hel Hs]];
          [exact Hacc|].
        apply (scanKeywords_drawn P _ _ _ _ _) with (3 := Hacc) in Hs;
          [exact Hs|].
        intros c k _ [Hnode Hdraw] _. unfold P. rewrite Hnode.
        split; [apply Hns; now left | split; [exact Hel | exact Hdraw]]. }
      destruct leave; [now injection Hw as <-|].
      apply (IH _ _ (fun x Hx => Hns x (or_intror Hx)) Hw Hm'). }
  pose proof (G nodes [] matches (incl_refl _) H (Forall_nil _)) as Hall.
  rewrite Forall_forall in Hall. exact (Hall m Hin).
Qed.

(** X17: every candidate that the collector returns covers at least one
    unit of text and at most as many as some keyword has. *)
Theorem collector_candidate_length (keywords : list jsstring)
    (nodes : list TextNode.t) (matches : list Match.t) (m : Match.t) :
  findVisibleMatchesWithPinyin toLowerCase pinyinPro win keywords nodes
  = Done matches ->
  In m matches ->
  exists keyword,
    In keyword keywords /\ (1 <= Match.length m <= len keyword)%Z.
Proof.
  intros H Hin.
  set (P := fun m : Match.t =>
              exists keyword,
                In keyword keywords
                /\ (1 <= Match.length m <= len keyword)%Z).
  assert (G : forall ns acc result,
             walk toLowerCase pinyinPro win keywords ns acc = Done result ->
             Forall P acc -> Forall P result).
  { induction ns as [|node rest IH]; intros acc result; cbn [walk].
    - now intros [= <-].
    - destruct (scanNode _ _ _ _ _ _) as [[m' leave]|] eqn:E; cbn [bind];
        [|discriminate].
      intros Hw Hacc.
      assert (Hm' : Forall P m').
      { destruct (scanNode_eligible _ _ _ _ _ E) as [->|[_ Hs]];
          [exact Hacc|].
        apply (scanKeywords_drawn P _ _ _ _ _) with (3 := Hacc) in Hs;
          [exact Hs|].
        intros c k Hk _ Hl. now exists k. }
      destruct leave; [now injection Hw as <-|].
      apply (IH _ _ Hw Hm'). }
  pose proof (G nodes [] matches H (Forall_nil _)) as Hall.
  rewrite Forall_forall in Hall. exact (Hall m Hin).
Qed.

End CollectorScreen.

(** ** Keywords of the search bar *)

Lemma splitFrom_noWhite (s : jsstring) (b : bool) (p : jsstring) :
  In p (splitFrom b s) -> noWhite p = true.
Proof.
  revert b p. induction s as [|c s IH]; intros b p; cbn [splitFrom].
  - now intros [<-|[]].
  - destruct (isWhite c) eqn:W.
    + destruct b; [apply IH|]. intros [<-|H]; [reflexivity | now apply IH in H].
    + destruct (splitFrom false s) as [|piece rest] eqn:E.
      * intros [<-|[]]. unfold noWhite. cbn [forallb]. now rewrite W.
      * intros [<-|H].
        -- unfold noWhite. cbn [forallb]. rewrite W. cbn [negb andb].
           apply (IH false). rewrite E. now left.
        -- apply (IH false). rewrite E. now right.
Qed.

Lemma splitFrom_tail (s : jsstring) :
  (isWhite (last s 32%N) = false ->
   Forall (fun p => p <> []) (splitFrom true s))
  /\ (s = [] \/ isWhite (last s 32%N) = false ->
      Forall (fun p => p <> []) (tl (splitFrom false s))).
Proof.
  induction s as [|c s [IHt IHr]].
  - split; [discriminate | intros _; constructor].
  - assert (Hlast : isWhite (last (c :: s) 32%N) = false ->
                    (s = [] /\ isWhite c = false)
                    \/ (s <> [] /\ isWhite (last s 32%N) = false)).
    { destruct s as [|d s]; [left; now split | right].
      split; [discriminate | exact H]. }
    cbn [splitFrom]. split.
    + intros H. destruct (Hlast H) as [[-> W]|[Hs Hl]].
      * rewrite W. simpl. repeat constructor. discriminate.
      * destruct (isWhite c); [now apply IHt|].
        destruct (splitFrom false s) as [|piece rest] eqn:E;
          [repeat constructor; discriminate|].
        constructor; [discriminate|].
        exact (IHr (or_intror Hl)).
    + intros [H|H]; [discriminate|].
      destruct (Hlast H) as [[-> W]|[Hs Hl]].
      * rewrite W. simpl. constructor.
      * destruct (isWhite c); [now apply IHt|].
        specialize (IHr (or_intror Hl)).
        destruct (splitFrom false s) as [|piece rest]; [constructor|].
        exact IHr.
Qed.

Lemma trimStart_suffix (s : jsstring) : exists pre, s = pre ++ trimStart s.
Proof.
  induction s as [|c s [pre IH]]; [now exists []|].
  cbn [trimStart]. destruct (isWhite c); [|now exists []].
  exists (c :: pre). simpl. now f_equal.
Qed.

Lemma trimStart_head (s : jsstring) (c : N) (rest : jsstring) :
  trimStart s = c :: rest -> isWhite c = false.
Proof.
  induction s as [|d s IH]; cbn [trimStart]; [discriminate|].
  destruct (isWhite d) eqn:W; [exact IH|]. now intros [= <- _].
Qed.

Lemma trim_shape (value : jsstring) :
  trim value = []
  \/ exists c rest,
      trim value = c :: rest /\ isWhite c = false
      /\ isWhite (last (trim value) 32%N) = false.
Proof.
  unfold trim. set (t := trimStart value).
  destruct (trimStart (rev t)) as [|d u] eqn:E; [now left|]. right.
  pose proof (trimStart_head _ _ _ E) as Wd.
  destruct (trimStart_suffix (rev t)) as [pre Hpre]. rewrite E in Hpre.
  apply (f_equal (@rev N)) in Hpre.
  rewrite rev_involutive, rev_app_distr in Hpre.
  cbn [rev]. rewrite last_last.
  destruct (rev u ++ [d]) as [|c r] eqn:Er; [now destruct (rev u)|].
  exists c, r. split; [reflexivity | split; [|exact Wd]].
  cbn [rev] in Hpre. rewrite Er in Hpre. simpl in Hpre.
  now apply (trimStart_head value c (r ++ rev pre)).
Qed.

Lemma splitWhite_trim_plain (value : jsstring) :
  trim value <> [] ->
  Forall (fun keyword => keyword <> [] /\ noWhite keyword = true)
         (splitWhite (trim value)).
Proof.
  intros Hne. unfold splitWhite.
  destruct (trim_shape value) as [H|(c & rest & E & Wc & Wl)]; [easy|].
  apply Forall_forall. intros p Hp. split; [|exact (splitFrom_noWhite _ _ _ Hp)].
  revert p Hp. apply Forall_forall.
  rewrite E in *. cbn [splitFrom]. rewrite Wc.
  assert (Hr : rest = [] \/ isWhite (last rest 32%N) = false).
  { destruct rest as [|d rest]; [now left | right; exact Wl]. }
  pose proof (proj2 (splitFrom_tail rest) Hr) as Htail.
  destruct (splitFrom false rest) as [|piece more];
    [repeat constructor; discriminate|].
  constructor; [discriminate | exact Htail].
Qed.

(** X11: on Enter, when something other than white space was typed, the
    search bar closes and activates the session on the keywords that it
    makes from its input, the pieces of the trimmed value split at white
    space; these are never empty and hold no white space, whatever was
    typed. *)
Theorem searchBar_keywords_plain (toLowerCase : jsstring -> jsstring)
    (detached : option DomRange) (pinyinPro : jsstring -> PinyinOutput)
    (win : Window.t)
    (regexScan : list jsstring -> list TextNode.t -> run (list Match.t))
    (sortHints : list Hint.t -> list Hint.t)
    (s : Session.t) (value : jsstring) (nodes : list TextNode.t) :
  trim value <> [] ->
  searchBarKeyDown toLowerCase detached pinyinPro win regexScan sortHints s
                   (lit "Enter") value nodes
  = activate toLowerCase detached pinyinPro win regexScan sortHints
             (closeSearchBar detached s) (splitWhite (trim value)) nodes
  /\ Forall (fun keyword => keyword <> [] /\ noWhite keyword = true)
            (splitWhite (trim value)).
Proof.
  intros Hne. split; [|now apply splitWhite_trim_plain].
  unfold searchBarKeyDown.
  change (eqs (lit "Enter") (lit "Control")) with false.
  change (eqs (lit "Enter") (lit "Alt")) with false.
  change (eqs (lit "Enter") (lit "Enter")) with true.
  cbn [orb]. now destruct (trim value).
Qed.

Lemma searchBar_keywords_plain_witness :
  Forall (fun keyword => keyword <> [] /\ noWhite keyword = true)
         (splitWhite (trim (lit "  ni   hao "))).
Proof.
  apply (searchBar_keywords_plain lowerCase None toyPinyin page
           (fun _ _ => Done []) (fun l => l) (waitingSession None)
           (lit "  ni   hao ") []).
  vm_compute. discriminate.
Defined.

(** ** Every hint can be reached by its label *)

Lemma labelsUniform_checked : forallb labelsUniform (seq 0 145) = true.
Proof. vm_compute. reflexivity. Qed.

Lemma unique_label (hs : list Hint.t) (h h' : Hint.t) :
  NoDup (map Hint.label hs) -> In h hs -> In h' hs ->
  Hint.label h' = Hint.label h -> h' = h.
Proof.
  induction hs as [|x hs IH]; [easy|]. cbn [map].
  intros Hn Hh Hh' Hl. inversion Hn as [|? ? Hx Hn']; subst.
  destruct Hh as [->|Hh], Hh' as [->|Hh']; try reflexivity.
  - exfalso. apply Hx. rewrite <- Hl. now apply in_map.
  - exfalso. apply Hx. rewrite Hl. now apply in_map.
  - now apply IH.
Qed.

Section Reach.

Variable toLowerCase : jsstring -> jsstring.
Variable detached : option DomRange.
Hypothesis lower_alphabet :
  forall c, In c characters -> toLowerCase [c] = [c].

Lemma checkHints_exact (s : Session.t) (h : Hint.t) (key : jsstring) :
  In h (Session.hints s) ->
  NoDup (map Hint.label (Session.hints s)) ->
  Hint.label h = Session.inputBuffer s ++ key ->
  checkHints detached s key
  = deactivate detached (jumpTo s (Hint.node h) (Hint.index h) (Hint.length h)).
Proof.
  intros Hin Hn Hl. unfold checkHints.
  destruct (find _ (Session.hints s)) as [h'|] eqn:F.
  - apply find_some in F as [Hin' Hl']. apply eqs_eq in Hl'.
    rewrite <- Hl in Hl'.
    now rewrite (unique_label _ _ _ Hn Hin Hin' Hl').
  - pose proof (find_none _ _ F h Hin) as Hno. cbn beta in Hno.
    rewrite Hl, eqs_refl in Hno. discriminate Hno.
Qed.

Lemma checkHints_prefix (s : Session.t) (h : Hint.t) (c1 c2 : N) :
  Session.inputBuffer s = [] ->
  In h (Session.hints s) ->
  Hint.label h = [c1; c2] ->
  (forall h', In h' (Session.hints s) -> length (Hint.label h') = 2) ->
  checkHints detached s [c1] = setBuffer s [c1].
Proof.
  intros Hb Hin Hl Hlen. unfold checkHints. rewrite Hb. cbn [app].
  destruct (find _ (Session.hints s)) as [h'|] eqn:F.
  - apply find_some in F as [Hin' Hl']. apply eqs_eq in Hl'.
    specialize (Hlen h' Hin'). rewrite Hl' in Hlen. discriminate Hlen.
  - assert (Hf : In h (filter (fun h0 => startsWith (Hint.label h0) [c1])
                              (Session.hints s))).
    { apply filter_In. split; [exact Hin|]. rewrite Hl. simpl.
      now rewrite N.eqb_refl. }
    destruct (filter _ (Session.hints s)); [destruct Hf | reflexivity].
Qed.

Lemma renderFrom_nth (win : Window.t) (count : nat) (ms : list Match.t)
    (k i : nat) (m : Match.t) :
  k + length ms <= count ->
  nth_error ms i = Some m ->
  nth_error (renderFrom win (generateLabels count) k ms) i
  = Some (Hint.mk (labelOf count (k + i)) (Match.node m) (Match.index m)
                  (Match.length m)
                  (Rect.top (Match.rect m) + Window.scrollY win)%float
                  (Rect.left (Match.rect m) + Rect.width (Match.rect m) / 2
                   + Window.scrollX win)%float
                  (Match.allRects m)).
Proof.
  revert k i. induction ms as [|x ms IH]; intros k i Hk; [now destruct i|].
  cbn [renderFrom length] in *.
  rewrite generateLabels_truthy by lia. cbn [negb].
  destruct i as [|i]; cbn [nth_error].
  - intros [= ->]. now rewrite Nat.add_0_r.
  - intros Hm. rewrite (IH (S k) i) by (lia || exact Hm).
    now replace (S k + i) with (k + S i) by lia.
Qed.

Lemma renderFrom_labels (win : Window.t) (count : nat) (ms : list Match.t)
    (k : nat) :
  k + length ms <= count ->
  map Hint.label (renderFrom win (generateLabels count) k ms)
  = map (labelOf count) (seq k (length ms)).
Proof.
  revert k. induction ms as [|x ms IH]; intros k Hk; [reflexivity|].
  cbn [renderFrom length seq map] in *.
  rewrite generateLabels_truthy by lia. cbn [negb map Hint.label].
  now rewrite IH by lia.
Qed.

Lemma handleKeyDown_label_key (s : Session.t) (c : N) :
  showing s -> In c characters ->
  handleKeyDown toLowerCase detached s (keyOf c) = checkHints detached s [c].
Proof.
  intros [Ha Hw] Hc. unfold handleKeyDown, keyOf.
  cbn [KeyboardEvent.repeat KeyboardEvent.key].
  rewrite Ha, Hw, (lower_alphabet c Hc). cbn [negb andb].
  rewrite (eqs_length [c] (lit "Alt")) by discriminate.
  rewrite (eqs_length [c] (lit "escape")) by discriminate.
  rewrite (eqs_length [c] (lit "backspace")) by discriminate.
  now rewrite (includes_unit _ _ Hc).
Qed.

(** X12: with at most 144 candidates, pressing the keys of the label that
    [generateLabels] gives to a candidate, from the empty buffer, jumps to
    that candidate and ends the session, in whatever order [fixOverlaps] has
    left the hints. *)
Theorem typed_label_jumps (win : Window.t) (matches : list Match.t)
    (s : Session.t) (i : nat) (m : Match.t) :
  length matches <= 144 ->
  Permutation (Session.hints s)
              (renderHints win matches (generateLabels (length matches))) ->
  showing s ->
  Session.inputBuffer s = [] ->
  nth_error matches i = Some m ->
  let s' := typeKeys toLowerCase detached s (labelOf (length matches) i) in
  Session.selection s'
  = Some (JumpRange (Match.node m) (Match.index m) (Match.length m))
  /\ Session.active s' = false
  /\ Session.hints s' = [].
Proof.
  intros Hcount Hperm Hshow Hbuf Hm.
  set (n := length matches) in *.
  set (hints0 := renderHints win matches (generateLabels n)) in *.
  assert (Hi : i < n) by (apply nth_error_Some; now rewrite Hm).
  pose proof labelsUniform_checked as Hu. rewrite forallb_forall in Hu.
  specialize (Hu n ltac:(apply in_seq; lia)).
  apply andb_prop in Hu as [Hdist Hform].
  rewrite forallb_forall in Hform.
  assert (Hlabels : map Hint.label hints0 = map (labelOf n) (seq 0 n))
    by (apply renderFrom_labels; unfold n; lia).
  assert (Hnodup : NoDup (map Hint.label (Session.hints s))).
  { apply (Permutation_NoDup (l := map Hint.label hints0)).
    - apply Permutation_map. now symmetry.
    - rewrite Hlabels. apply (NoDup_map_inv Some). now apply distinctb_NoDup. }
  pose proof (renderFrom_nth win n matches 0 i m ltac:(unfold n; lia) Hm)
    as Hnth.
  cbn [Nat.add] in Hnth. fold (renderHints win matches (generateLabels n))
    in Hnth. fold hints0 in Hnth.
  set (h := Hint.mk (labelOf n i) (Match.node m) (Match.index m)
                    (Match.length m)
                    (Rect.top (Match.rect m) + Window.scrollY win)%float
                    (Rect.left (Match.rect m) + Rect.width (Match.rect m) / 2
                     + Window.scrollX win)%float
                    (Match.allRects m)) in *.
  assert (Hin : In h (Session.hints s)).
  { apply (Permutation_in (l := hints0)); [now symmetry|].
    exact (nth_error_In _ _ Hnth). }
  assert (Hlen : forall h', In h' (Session.hints s) ->
                   length (Hint.label h') = (if n <=? 12 then 1 else 2)
                   /\ overCharacters (Hint.label h')).
  { intros h' Hh'.
    assert (Hl : In (Hint.label h') (map (labelOf n) (seq 0 n))).
    { rewrite <- Hlabels. apply in_map.
      now apply (Permutation_in (l := Session.hints s)). }
    apply Hform in Hl. apply andb_prop in Hl as [H1 H2].
    apply Nat.eqb_eq in H1. split; [exact H1|].
    intros c Hc. rewrite forallb_forall in H2.
    apply H2 in Hc. apply existsb_exists in Hc as (c' & Hc' & E).
    apply N.eqb_eq in E. now subst. }
  destruct (Hlen h Hin) as [Hhl Hhc]. cbn [Hint.label h] in Hhl, Hhc.
  assert (Hjump : forall s0,
             Session.selection
               (deactivate detached (jumpTo s0 (Match.node m) (Match.index m)
                                   (Match.length m)))
             = Some (JumpRange (Match.node m) (Match.index m) (Match.length m))
             /\ Session.active (deactivate detached (jumpTo s0 (Match.node m)
                                  (Match.index m) (Match.length m))) = false
             /\ Session.hints (deactivate detached (jumpTo s0 (Match.node m)
                                 (Match.index m) (Match.length m))) = [])
    by (intros s0;
        destruct (jump_facts detached s0 (Match.node m) (Match.index m)
                             (Match.length m))
          as (H1 & H2 & _ & _ & H3 & _); now repeat split).
  unfold typeKeys.
  destruct (labelOf n i) as [|c1 [|c2 [|c3 l]]] eqn:El;
    destruct (n <=? 12); try discriminate Hhl.
  - cbn [fold_left].
    assert (Hc1 : In c1 characters) by (apply Hhc; now left).
    rewrite (handleKeyDown_label_key s c1 Hshow Hc1).
    rewrite (checkHints_exact s h [c1] Hin Hnodup)
      by (rewrite Hbuf; reflexivity).
    apply Hjump.
  - cbn [fold_left].
    assert (Hc1 : In c1 characters) by (apply Hhc; now left).
    rewrite (handleKeyDown_label_key s c1 Hshow Hc1).
    rewrite (checkHints_prefix s h c1 c2 Hbuf Hin eq_refl)
      by (intros h' Hh'; now apply Hlen).
    assert (Hshow1 : showing (setBuffer s [c1])) by exact Hshow.
    assert (Hc2 : In c2 characters) by (apply Hhc; right; now left).
    rewrite (handleKeyDown_label_key _ _ Hshow1 Hc2).
    rewrite (checkHints_exact (setBuffer s [c1]) h [c2] Hin Hnodup)
      by reflexivity.
    apply Hjump.
Qed.

End Reach.

Lemma lowerCase_alphabet (c : N) :
  In c characters -> lowerCase [c] = [c].
Proof.
  intros H. vm_compute in H.
  repeat (destruct H as [<-|H]; [reflexivity|]). destruct H.
Qed.

Lemma typed_label_jumps_witness :
  Session.selection (typeKeys lowerCase None (twoHintSession None) (lit "w"))
  = Some (JumpRange (lineNode 1 (lit "x")) 0 1).
Proof.
  destruct (typed_label_jumps lowerCase None lowerCase_alphabet page twoMatches
              (twoHintSession None) 1
              (Match.mk (lineNode 1 (lit "x")) 0 1 (unitRect 0 20)
                        [unitRect 0 20] None))
    as [H _].
  - simpl. lia.
  - apply Permutation_refl.
  - split; reflexivity.
  - reflexivity.
  - reflexivity.
  - exact H.
Defined.

(** ** Key events, step by step *)

Lemma includes_units (s q : jsstring) (c : N) :
  includes s q = true -> In c q -> In c s.
Proof.
  intros H Hc. apply includes_found in H as (j & _ & H).
  apply startsWith_firstn in H as [_ H]. rewrite <- H in Hc.
  rewrite <- (firstn_skipn j s). apply in_or_app. right.
  rewrite <- (firstn_skipn (length q) (skipn j s)). apply in_or_app. now left.
Qed.

Lemma removelast_In (A : Type) (l : list A) (x : A) :
  In x (removelast l) -> In x l.
Proof.
  induction l as [|y l IH]; [easy|]. cbn [removelast].
  destruct l as [|z l]; [easy|].
  intros [->|H]; [now left | right; now apply IH].
Qed.

Section Steps.

Variable toLowerCase : jsstring -> jsstring.
Variable detached : option DomRange.

(** What a key event can do to the selection of the host: leave it, set it
    back to the saved range, take it into the input of the search bar that
    opens, saving what was selected, leave it to the host when the bar that
    holds it is removed and nothing was saved, or put it on a hint whose
    label is the buffer followed by the lower-cased key. *)
Let selectionStep (s : Session.t) (e : KeyboardEvent.t) (t : Session.t)
    : Prop :=
  Session.selection t = Session.selection s
  \/ Session.selection t = Session.savedRange s
  \/ (Session.selection t = Some SearchInputRange
      /\ Session.savedRange t = Session.selection s
      /\ Session.waitingForInput t = true
      /\ Session.searchBar t = true)
  \/ (Session.searchBar s = true
      /\ Session.selection s = Some SearchInputRange
      /\ Session.savedRange s = None
      /\ Session.searchBar t = false
      /\ Session.selection t = detached)
  \/ exists h,
      In h (Session.hints s)
      /\ Hint.label h
         = Session.inputBuffer s ++ toLowerCase (KeyboardEvent.key e)
      /\ Session.selection t
         = Some (JumpRange (Hint.node h) (Hint.index h) (Hint.length h)).

Let hintsStep (s t : Session.t) : Prop :=
  Session.hints t = Session.hints s
  \/ (Session.hints t = [] /\ Session.active t = false
      /\ Session.waitingForInput t = false).

Lemma step_same (s : Session.t) (e : KeyboardEvent.t) (t : Session.t) :
  Session.inputBuffer t = Session.inputBuffer s ->
  Session.hints t = Session.hints s ->
  Session.selection t = Session.selection s ->
  (overCharacters (Session.inputBuffer s) ->
   overCharacters (Session.inputBuffer t))
  /\ hintsStep s t /\ selectionStep s e t.
Proof.
  intros E1 E2 E3. rewrite E1.
  split; [easy | split; [now left | now left]].
Qed.

Lemma step_deactivate (s : Session.t) (e : KeyboardEvent.t)
    (t : Session.t) :
  t = deactivate detached s \/ t = setLastAlt (deactivate detached s) 0 ->
  (overCharacters (Session.inputBuffer s) ->
   overCharacters (Session.inputBuffer t))
  /\ hintsStep s t /\ selectionStep s e t.
Proof.
  intros Ht.
  destruct (deactivate_facts detached s)
    as ((Ha & Hw & Hsb & Hh & _) & Hbuf & _ & Hs).
  assert (Et : Session.inputBuffer t = Session.inputBuffer s
               /\ Session.hints t = [] /\ Session.active t = false
               /\ Session.waitingForInput t = false
               /\ Session.searchBar t = false
               /\ Session.selection t
                  = Session.selection (deactivate detached s)).
  { destruct Ht as [->| ->]; cbn [setLastAlt Session.inputBuffer
      Session.hints Session.active Session.waitingForInput Session.selection
      Session.searchBar];
      rewrite ?Hbuf; now repeat split. }
  destruct Et as (E1 & E2 & E3 & E4 & E5 & E6).
  split; [now rewrite E1 | split; [right; now repeat split|]].
  unfold selectionStep. rewrite E6, Hs.
  destruct (Session.savedRange s) eqn:Esv; [right; now left|].
  unfold closeSearchBar. cbn [Session.selection].
  destruct (Session.searchBar s) eqn:Eb; [|now left].
  destruct (Session.selection s) as [[| |]|] eqn:Esel; try (now left).
  right. right. right. left. now repeat split.
Qed.

(** X13: what a key event can do. The buffer keeps holding alphabet symbols
    only; the hints stay as they are or are dropped on leaving the session;
    and the selection of the host stays, or is set back to the saved range,
    or is taken into the input of the search bar that opens, while what was
    selected is saved, or is left to the host when the bar that holds it is
    removed and nothing was saved, or is put on a hint whose label is the
    buffer followed by the lower-cased key. *)
Theorem handleKeyDown_step (s : Session.t) (e : KeyboardEvent.t) :
  let s' := handleKeyDown toLowerCase detached s e in
  (overCharacters (Session.inputBuffer s) ->
   overCharacters (Session.inputBuffer s'))
  /\ (Session.hints s' = Session.hints s
      \/ (Session.hints s' = [] /\ Session.active s' = false
          /\ Session.waitingForInput s' = false))
  /\ (Session.selection s' = Session.selection s
      \/ Session.selection s' = Session.savedRange s
      \/ (Session.selection s' = Some SearchInputRange
          /\ Session.savedRange s' = Session.selection s
          /\ Session.waitingForInput s' = true
          /\ Session.searchBar s' = true)
      \/ (Session.searchBar s = true
          /\ Session.selection s = Some SearchInputRange
          /\ Session.savedRange s = None
          /\ Session.searchBar s' = false
          /\ Session.selection s' = detached)
      \/ exists h,
          In h (Session.hints s)
          /\ Hint.label h
             = Session.inputBuffer s ++ toLowerCase (KeyboardEvent.key e)
          /\ Session.selection s'
             = Some (JumpRange (Hint.node h) (Hint.index h) (Hint.length h))).
Proof.
  intros s'. subst s'.
  change ((overCharacters (Session.inputBuffer s) ->
           overCharacters
             (Session.inputBuffer (handleKeyDown toLowerCase detached s e)))
          /\ hintsStep s (handleKeyDown toLowerCase detached s e)
          /\ selectionStep s e (handleKeyDown toLowerCase detached s e)).
  unfold handleKeyDown.
  destruct (KeyboardEvent.repeat e); [now apply step_same|].
  destruct (eqs (KeyboardEvent.key e) (lit "Alt")).
  { destruct (_ <? 300)%Z; [|now apply step_same].
    destruct (Session.active s || Session.waitingForInput s).
    - apply step_deactivate. now right.
    - split; [easy | split; [now left|]].
      right. right. left. now repeat split. }
  destruct (negb (Session.active s) && negb (Session.waitingForInput s));
    [now apply step_same|].
  destruct (Session.waitingForInput s).
  { destruct (eqs _ (lit "Escape")); [|now apply step_same].
    apply step_deactivate. now left. }
  destruct (Session.active s); [|now apply step_same].
  destruct (eqs _ (lit "escape")).
  { apply step_deactivate. now left. }
  destruct (eqs _ (lit "backspace")).
  { destruct (0 <? _); [|now apply step_same].
    split; [|split; now left].
    intros Hover c Hc. apply Hover. now apply removelast_In. }
  destruct (includes characters _) eqn:Einc; [|now apply step_same].
  unfold checkHints.
  destruct (find _ (Session.hints s)) as [h|] eqn:F.
  - apply find_some in F as [Hin Hl]. apply eqs_eq in Hl.
    destruct (jump_facts detached s (Hint.node h) (Hint.index h)
                         (Hint.length h))
      as (Hs & Ha & Hw & _ & Hh & _ & Hbuf).
    split; [now rewrite Hbuf | split; [right; now repeat split|]].
    right. right. right. right. exists h. now repeat split.
  - destruct (0 <? _); [|now apply step_same].
    split; [|split; now left].
    cbn [setBuffer Session.inputBuffer].
    intros Hover c Hc. apply in_app_iff in Hc as [Hc|Hc];
      [now apply Hover | exact (includes_units _ _ _ Einc Hc)].
Qed.

(** X14: two presses of Alt less than 300 ms apart, from rest, open the
    search bar, save what was selected, and leave the selection in the input
    of the bar; two more such presses, or Escape, close it and leave nothing
    of the session behind; when something was selected before, it is
    selected again, and when nothing was, the selection is what the host
    makes of the one in the input that is removed. *)
Theorem double_alt_toggles (s : Session.t) (t1 t2 t3 t4 : Z) :
  Session.active s = false ->
  Session.waitingForInput s = false ->
  (300 <= t1 - Session.lastAltPressTime s)%Z ->
  (t2 - t1 < 300)%Z ->
  (300 <= t3)%Z ->
  (t4 - t3 < 300)%Z ->
  let press := handleKeyDown toLowerCase detached in
  let opened := press (press s (altPress t1)) (altPress t2) in
  let closed := press (press opened (altPress t3)) (altPress t4) in
  let escaped := press opened escapePress in
  Session.waitingForInput opened = true
  /\ Session.searchBar opened = true
  /\ Session.savedRange opened = Session.selection s
  /\ Session.selection opened = Some SearchInputRange
  /\ idle closed /\ idle escaped
  /\ Session.selection closed
     = match Session.selection s with
       | Some range => Some range
       | None => detached
       end
  /\ Session.selection escaped = Session.selection closed.
Proof.
  intros Ha Hw H1 H2 H3 H4 press opened closed escaped.
  assert (Hfirst : forall s0 t,
             (300 <= t - Session.lastAltPressTime s0)%Z ->
             press s0 (altPress t) = setLastAlt s0 t).
  { intros s0 t Ht. unfold press, handleKeyDown, altPress.
    cbn [KeyboardEvent.repeat KeyboardEvent.key KeyboardEvent.now].
    change (eqs (lit "Alt") (lit "Alt")) with true. cbn iota.
    now replace (t - Session.lastAltPressTime s0 <? 300)%Z with false
      by (symmetry; apply Z.ltb_ge; lia). }
  assert (Hsecond : forall s0 t,
             (t - Session.lastAltPressTime s0 < 300)%Z ->
             press s0 (altPress t)
             = setLastAlt (if Session.active s0 || Session.waitingForInput s0
                           then deactivate detached s0
                           else openSearchBar s0) 0).
  { intros s0 t Ht. unfold press, handleKeyDown, altPress.
    cbn [KeyboardEvent.repeat KeyboardEvent.key KeyboardEvent.now].
    change (eqs (lit "Alt") (lit "Alt")) with true. cbn iota.
    now replace (t - Session.lastAltPressTime s0 <? 300)%Z with true
      by (symmetry; apply Z.ltb_lt; lia). }
  assert (Eopened : opened = setLastAlt (openSearchBar s) 0).
  { unfold opened. rewrite (Hfirst s t1 H1).
    rewrite Hsecond by exact H2.
    cbn [setLastAlt Session.active Session.waitingForInput].
    now rewrite Ha, Hw. }
  assert (Eclosed : closed
                    = setLastAlt
                        (deactivate detached (setLastAlt opened t3)) 0).
  { unfold closed. rewrite (Hfirst opened t3) by (rewrite Eopened; simpl; lia).
    rewrite Hsecond by (simpl; lia).
    cbn [setLastAlt Session.active Session.waitingForInput].
    rewrite Eopened. cbn [setLastAlt openSearchBar Session.active
                          Session.waitingForInput].
    now rewrite orb_true_r. }
  assert (Eescaped : escaped = deactivate detached opened).
  { unfold escaped, press, handleKeyDown, escapePress.
    cbn [KeyboardEvent.repeat KeyboardEvent.key].
    change (eqs (lit "Escape") (lit "Alt")) with false.
    change (eqs (lit "Escape") (lit "Escape")) with true.
    rewrite Eopened. cbn [setLastAlt openSearchBar Session.active
                          Session.waitingForInput].
    now rewrite Ha. }
  destruct (deactivate_facts detached opened) as (Hidle & _ & _ & Hsel).
  destruct (deactivate_facts detached (setLastAlt opened t3))
    as (Hidle' & _ & _ & Hsel').
  assert (Hback : Session.selection (deactivate detached opened)
                  = match Session.selection s with
                    | Some range => Some range
                    | None => detached
                    end).
  { rewrite Hsel, Eopened.
    cbn [setLastAlt openSearchBar closeSearchBar Session.savedRange
         Session.selection Session.searchBar].
    reflexivity. }
  assert (Hback' : Session.selection
                     (deactivate detached (setLastAlt opened t3))
                   = match Session.selection s with
                     | Some range => Some range
                     | None => detached
                     end).
  { rewrite Hsel', Eopened.
    cbn [setLastAlt openSearchBar closeSearchBar Session.savedRange
         Session.selection Session.searchBar].
    reflexivity. }
  rewrite Eclosed, Eescaped.
  split; [now rewrite Eopened|]. split; [now rewrite Eopened|].
  split; [now rewrite Eopened|]. split; [now rewrite Eopened|].
  split; [exact Hidle'|]. split; [exact Hidle|].
  cbn [setLastAlt Session.selection]. rewrite Hback, Hback'.
  now split.
Qed.

(** X15: the ways out of a session that shows hints, the search bar being
    closed. Escape and a scroll give the saved selection back; a
    pointer-down outside the search bar does not, and leaves the selection
    where it is. All three leave nothing of the session behind. *)
Theorem leaving_hints (s : Session.t) (range : DomRange) :
  toLowerCase (lit "Escape") = lit "escape" ->
  showing s ->
  Session.searchBar s = false ->
  Session.savedRange s = Some range ->
  let escaped := handleKeyDown toLowerCase detached s escapePress in
  let scrolled := autoDismiss detached s in
  let clicked := handleMouseDown detached s false in
  idle escaped /\ Session.selection escaped = Some range
  /\ idle scrolled /\ Session.selection scrolled = Some range
  /\ idle clicked /\ Session.selection clicked = Session.selection s.
Proof.
  intros Hesc [Ha Hw] Hbar Hsv.
  unfold handleKeyDown, autoDismiss, handleMouseDown, escapePress.
  cbn [KeyboardEvent.repeat KeyboardEvent.key].
  rewrite Ha, Hw, Hesc.
  change (eqs (lit "Escape") (lit "Alt")) with false.
  change (eqs (lit "escape") (lit "escape")) with true.
  cbn [negb andb]. rewrite Hbar. cbn [andb].
  destruct (deactivate_facts detached s) as (Hi & _ & _ & Hs).
  destruct (deactivate_facts detached (setSavedRange s None))
    as (Hi' & _ & _ & Hs').
  rewrite Hsv in Hs.
  cbn [setSavedRange Session.savedRange] in Hs'.
  rewrite closeSearchBar_selection in Hs' by (left; exact Hbar).
  cbn [setSavedRange Session.selection] in Hs'.
  repeat (split; [assumption|]). assumption.
Qed.

End Steps.

(** From rest with the range 7 selected: opened, closed again, and the
    range 7 is selected again. *)
Lemma double_alt_toggles_witness :
  let closed :=
    handleKeyDown lowerCase None
      (handleKeyDown lowerCase None
         (handleKeyDown lowerCase None
            (handleKeyDown lowerCase None (idleSession (Some (HostRange 7)))
                           (altPress 1000))
            (altPress 1100))
         (altPress 5000))
      (altPress 5200) in
  idle closed /\ Session.selection closed = Some (HostRange 7).
Proof.
  destruct (double_alt_toggles lowerCase None
              (idleSession (Some (HostRange 7))) 1000 1100 5000 5200)
    as (_ & _ & _ & _ & H & _ & Hsel & _); try reflexivity; try (simpl; lia).
  split; [exact H | exact Hsel].
Defined.

(** Hints shown from a search bar that was opened on the range 7, with the
    range 9 selected since: Escape selects the range 7 again, a pointer-down
    leaves the range 9 selected. *)
Lemma leaving_hints_witness :
  Session.selection
    (handleKeyDown lowerCase None (twoHintSession (Some (HostRange 7)))
                   escapePress)
  = Some (HostRange 7)
  /\ Session.selection
       (handleMouseDown None (twoHintSession (Some (HostRange 7))) false)
     = Some (HostRange 9).
Proof.
  destruct (leaving_hints lowerCase None (twoHintSession (Some (HostRange 7)))
              (HostRange 7))
    as (_ & H1 & _ & _ & _ & H2);
    [reflexivity | split; reflexivity | reflexivity | reflexivity |].
  split; [exact H1 | exact H2].
Defined.

Lemma handleKeyDown_step_witness :
  overCharacters
    (Session.inputBuffer
       (handleKeyDown lowerCase None (activeSession []) (press "s"))).
Proof.
  destruct (handleKeyDown_step lowerCase None (activeSession []) (press "s"))
    as [H _].
  apply H. intros c [].
Defined.

(** ** Enter in the search bar *)


Section Enter.

Variable toLowerCase : jsstring -> jsstring.
Variable detached : option DomRange.
Variable pinyinPro : jsstring -> PinyinOutput.
Variable win : Window.t.
Variable regexScan : list jsstring -> list TextNode.t -> run (list Match.t).
Variable sortHints : list Hint.t -> list Hint.t.

Hypothesis lower_keeps : keepsNonEmpty toLowerCase.
Hypothesis lower_plain :
  forall s, noWhite s = true -> noWhite (toLowerCase s) = true.
Hypothesis sortHints_permutes : forall l, Permutation (sortHints l) l.


End Enter.


(** ** Closed examples of the further properties *)

Lemma collector_returns_witness :
  exists matches,
    findVisibleMatchesWithPinyin lowerCase toyPinyin page
      [lit "nihao"; lit "the"] exampleDocument = Done matches.
Proof.
  apply collector_returns; [exact lowerCase_keepsNonEmpty|].
  repeat constructor.
Defined.

Lemma collector_candidates_on_screen_witness :
  exists m,
    findVisibleMatchesWithPinyin lowerCase toyPinyin page [lit "nihao"]
                                 exampleDocument = Done [m]
    /\ In (Match.node m) exampleDocument
    /\ inViewport page (Match.rect m) = true.
Proof.
  eexists. split; [vm_compute; reflexivity|].
  destruct (collector_candidates_on_screen lowerCase toyPinyin page
              [lit "nihao"] exampleDocument _ _ eq_refl (or_introl eq_refl))
    as (Hin & _ & rest & _ & _ & Hv).
  split; [exact Hin | exact Hv].
Defined.

Lemma collector_candidate_length_witness :
  exists m,
    findVisibleMatchesWithPinyin lowerCase toyPinyin page [lit "nihao"]
                                 exampleDocument = Done [m]
    /\ (1 <= Match.length m <= 5)%Z.
Proof.
  eexists. split; [vm_compute; reflexivity|].
  destruct (collector_candidate_length lowerCase toyPinyin page
              [lit "nihao"] exampleDocument _ _ eq_refl (or_introl eq_refl))
    as (k & [<-|[]] & Hl).
  exact Hl.
Defined.

(** ** The gate of the collector and one-unit keywords *)

Section Gate.

Variable toLowerCase : jsstring -> jsstring.
Variable pinyinPro : jsstring -> PinyinOutput.
Variable win : Window.t.

Lemma enhancedLoop_false (text : jsstring) (queries : list jsstring)
    (query : jsstring) :
  enhancedLoop toLowerCase pinyinPro text (toLowerCase text) queries
  = Done false ->
  In query queries -> query <> [] ->
  includes (toLowerCase text) (toLowerCase query) = false
  /\ (exists r,
        matchPinyin toLowerCase pinyinPro (Str text) query = Done r
        /\ match r with
           | Some o => PinyinMatchResult.matched o = false
           | None => True
           end)
  /\ isSingleCharPinyinMatch toLowerCase pinyinPro text query = false.
Proof.
  induction queries as [|q rest IH]; [easy|]. cbn [enhancedLoop].
  intros H [->|Hin] Hq.
  - destruct query as [|y query]; [easy|]. cbn [isEmpty] in H.
    destruct (includes (toLowerCase text) (toLowerCase (y :: query)));
      [discriminate H|].
    destruct (matchPinyin _ _ _ _) as [r|]; cbn [bind] in H;
      [|discriminate H].
    split; [reflexivity|].
    destruct r as [o|].
    + destruct (PinyinMatchResult.matched o) eqn:Em; [discriminate H|].
      destruct (isSingleCharPinyinMatch _ _ _ _); [discriminate H|].
      split; [|reflexivity]. now exists (Some o).
    + destruct (isSingleCharPinyinMatch _ _ _ _); [discriminate H|].
      split; [|reflexivity]. now exists None.
  - destruct (isEmpty q); [now apply IH|].
    destruct (includes (toLowerCase text) (toLowerCase q));
      [discriminate H|].
    destruct (matchPinyin toLowerCase pinyinPro (Str text) q) as [r|];
      cbn [bind] in H; [|discriminate H].
    repeat match type of H with
           | context [if ?b then _ else _] => destruct b; try discriminate H
           end;
      now apply IH.
Qed.

(** Where lower-casing works unit by unit, a lower-cased syllable that starts
    with a lower-cased one-unit key has a first unit whose lower case is
    that of the key. *)
Lemma unitwise_first (first : jsstring) (c : N) :
  unitwise toLowerCase first ->
  length (toLowerCase [c]) = 1 ->
  startsWith (toLowerCase first) (toLowerCase [c]) = true ->
  toLowerCase (charAt0 first) = toLowerCase [c].
Proof.
  intros [Hflat Hone] Hc Hs. rewrite Hflat in Hs.
  destruct first as [|f0 first].
  - cbn [flat_map] in Hs.
    destruct (toLowerCase [c]); [discriminate Hc | discriminate Hs].
  - inversion Hone as [|? ? Hf0 _]; subst.
    cbn [flat_map charAt0 firstn] in *.
    destruct (toLowerCase [f0]) as [|e [|? ?]]; try discriminate Hf0.
    destruct (toLowerCase [c]) as [|d [|? ?]]; try discriminate Hc.
    cbn in Hs. apply andb_true_iff in Hs as [Hs _].
    apply N.eqb_eq in Hs. now subst.
Qed.

(** X18: when [enhancedMatch] answers no for a text, the scan of a keyword
    of one unit of that list on this text would add no candidate: for such
    keywords the gate of the collector hides nothing. This is for a key
    whose lower case is one unit and for syllables, those of the units of
    the text taken one by one, that are lower-cased unit by unit. *)
Theorem gate_hides_no_one_unit_keyword (node : TextNode.t)
    (text : jsstring) (keywords : list jsstring) (c : N)
    (matches : list Match.t) :
  length (toLowerCase [c]) = 1 ->
  (forall char first others,
      In char text ->
      getPinyin pinyinPro [char] = first :: others ->
      unitwise toLowerCase first) ->
  enhancedMatch toLowerCase pinyinPro text keywords = Done false ->
  text <> [] ->
  In [c] keywords ->
  scanKeyword toLowerCase pinyinPro win node text [c] matches = Done matches.
Proof.
  unfold enhancedMatch. intros Hc Hunit H Ht Hin.
  destruct text as [|x text]; [easy|]. cbn [isEmpty orb] in H.
  destruct keywords as [|k0 ks] eqn:Ek; [destruct Hin|].
  cbn [length Nat.eqb] in H. rewrite <- Ek in H, Hin.
  destruct (enhancedLoop_false _ _ [c] H Hin ltac:(discriminate))
    as (Hinc & (r & Hr & Hm) & Hsingle).
  set (txt := x :: text) in *.
  assert (Hnone : findEnhancedMatchIndices toLowerCase pinyinPro txt [c]
                  = Done []).
  { unfold findEnhancedMatchIndices. rewrite Hinc.
    cbn [bind length Nat.eqb Nat.ltb Nat.leb andb].
    assert (Hfold :
              fold_left
                (fun indices '(i, char) =>
                   if isAlnum char then indices
                   else
                     match getPinyin pinyinPro [char] with
                     | [] => indices
                     | first :: _ =>
                         if startsWith (toLowerCase first) (toLowerCase [c])
                         then indices ++ [Z.of_nat i]
                         else indices
                     end)
                (units txt) [] = []).
    { apply fold_left_invariant; [|reflexivity].
      intros a [i char] Hu ->.
      destruct (isAlnum char) eqn:Ea; [reflexivity|].
      destruct (getPinyin pinyinPro [char]) as [|first others] eqn:Ep;
        [reflexivity|].
      destruct (startsWith (toLowerCase first) (toLowerCase [c])) eqn:Es;
        [|reflexivity].
      exfalso.
      pose proof (in_combine_r _ _ _ _ Hu) as Hchar.
      pose proof (unitwise_first first c (Hunit _ _ _ Hchar Ep) Hc Es)
        as Hfirst.
      unfold isSingleCharPinyinMatch in Hsingle.
      cbn [length Nat.eqb negb] in Hsingle. rewrite Hinc in Hsingle.
      assert (Hex : existsb
                      (fun char0 =>
                         if isAlnum char0 then false
                         else existsb
                                (fun py => eqs (toLowerCase (charAt0 py))
                                               (toLowerCase [c]))
                                (getPinyin pinyinPro [char0])) txt = true).
      { apply existsb_exists. exists char. split; [exact Hchar|].
        rewrite Ea, Ep. cbn [existsb]. apply orb_true_iff. left.
        apply eqs_eq. exact Hfirst. }
      congruence. }
    rewrite Hfold. reflexivity. }
  unfold scanKeyword. cbn [isEmpty]. rewrite Hinc, Hr.
  cbn [bind]. rewrite Hnone. cbn [bind fold_left].
  destruct r as [o|]; [|reflexivity].
  now rewrite Hm.
Qed.

End Gate.

Lemma gate_hides_no_one_unit_keyword_witness :
  scanKeyword lowerCase toyPinyin page (lineNode 0 hanText) hanText
              (lit "z") []
  = Done [].
Proof.
  apply (gate_hides_no_one_unit_keyword lowerCase toyPinyin page
           (lineNode 0 hanText) hanText [lit "z"; lit "qq"] 122%N []).
  - reflexivity.
  - intros char first others Hchar Hp.
    destruct Hchar as [<-|[<-|[<-|[<-|[]]]]]; injection Hp as <- _;
      (split; [reflexivity | repeat constructor]).
  - vm_compute. reflexivity.
  - discriminate.
  - now left.
Defined.
